(** * PyFy: resolving Postman collection URLs against an environment

    A shallow embedding of [wrapped-out.py]: the two pure functions
    [get_environment_map] and [find_and_process_items], over a model of the
    values that [json.load] hands to them, together with the properties of
    the natural-language specification that concern them.

    - Python values are modelled by [pyval]; a raised exception is an
      explicit [Raise] result, and [try]/[except] a function on results.
    - The dictionary that [get_environment_map] builds is a finite map
      ([gmap]) from hashed keys to values.
    - A string is a [string] of the standard library.  The pattern and
      [replace] only tell braces from other characters, so a character
      outside ASCII may be read as the bytes of its UTF-8 encoding.
    - [re.findall] and [str.replace] are modelled as the scans they perform.
    - For the claim about mutation the walk is embedded a second time, over
      a store of lists and dictionaries ([find_and_process_items_store]),
      and related to the first embedding.
    - The interpreter's recursion limit is not modelled: a document is a
      finite tree and the walk follows it to its leaves.
    - [main] is modelled by what it prints, given the two lines typed and
      what loading a path gives. *)

From Stdlib Require Import ZArith String Ascii List Bool Lia.
From Stdlib Require Import Floats.SpecFloat.
From stdpp Require Import base decidable countable option list gmap strings.

Open Scope string_scope.
Open Scope list_scope.
Open Scope Z_scope.

(** ** Values *)

(** What [json.load] produces: [None], booleans, integers, floats, strings,
    lists and dictionaries with string keys.  A dictionary is kept as the
    list of its entries; [dict_lookup] reads the first entry for a key, so
    every Python dictionary has a representation and a lookup does not
    depend on which one is taken. *)
Unset Elimination Schemes.
Inductive pyval : Type :=
| PNone
| PBool (b : bool)
| PInt (z : Z)
| PFloat (f : spec_float)
| PStr (s : string)
| PList (items : list pyval)
| PDict (entries : list (string * pyval)).
Set Elimination Schemes.

(** Structural induction that also reaches the elements of a list and the
    values of a dictionary. *)
Section pyval_induction.
Variable P : pyval -> Prop.
Hypothesis HNone : P PNone.
Hypothesis HBool : forall b, P (PBool b).
Hypothesis HInt : forall z, P (PInt z).
Hypothesis HFloat : forall f, P (PFloat f).
Hypothesis HStr : forall s, P (PStr s).
Hypothesis HList : forall items, Forall P items -> P (PList items).
Hypothesis HDict :
  forall entries, Forall (fun kv => P (snd kv)) entries -> P (PDict entries).

Fixpoint pyval_nested_ind (v : pyval) : P v :=
  match v with
  | PNone => HNone
  | PBool b => HBool b
  | PInt z => HInt z
  | PFloat f => HFloat f
  | PStr s => HStr s
  | PList items =>
      HList items
        ((fix all (l : list pyval) : Forall P l :=
            match l with
            | [] => List.Forall_nil _
            | x :: l' => @List.Forall_cons _ P x l' (pyval_nested_ind x) (all l')
            end) items)
  | PDict entries =>
      HDict entries
        ((fix all (l : list (string * pyval)) : Forall (fun kv => P (snd kv)) l :=
            match l with
            | [] => List.Forall_nil _
            | kv :: l' =>
                @List.Forall_cons _ (fun kv => P (snd kv)) kv l'
                  (pyval_nested_ind (snd kv)) (all l')
            end) entries)
  end.
End pyval_induction.

(** ** Exceptions *)

(** The three exception classes the two functions can meet. *)
Inductive exn : Type := KeyError | TypeError | AttributeError.

Inductive result (A : Type) : Type :=
| Ok (a : A)
| Raise (e : exn).
Arguments Ok {A} a.
Arguments Raise {A} e.

#[global] Instance result_ret : MRet result := fun A a => Ok a.
#[global] Instance result_bind : MBind result := fun A B k r =>
  match r with
  | Ok a => k a
  | Raise e => Raise e
  end.

(** [try: r except (KeyError, TypeError): handler]. *)
Definition try_except {A : Type} (r : result A) (handler : A) : result A :=
  match r with
  | Ok a => Ok a
  | Raise KeyError | Raise TypeError => Ok handler
  | Raise AttributeError => Raise AttributeError
  end.

Definition returns {A : Type} (r : result A) : Prop := exists a, r = Ok a.

(** ** Python primitives on values *)

(** [d[k]] and [k in d] on a dictionary with string keys. *)
Fixpoint dict_lookup (k : string) (entries : list (string * pyval)) : option pyval :=
  match entries with
  | [] => None
  | (k', v) :: rest => if String.eqb k' k then Some v else dict_lookup k rest
  end.

(** [sub in s] on strings: [sub] occurs somewhere in [s]. *)
Fixpoint str_contains (sub s : string) : bool :=
  String.prefix sub s ||
  match s with
  | EmptyString => false
  | String _ s' => str_contains sub s'
  end.

(** ['k' in v].  A dictionary tests its keys, a list its elements (only a
    string element can equal ['k']), a string tests for a substring; the
    remaining values are not containers. *)
Definition py_in (k : string) (v : pyval) : result bool :=
  match v with
  | PDict entries => Ok (bool_decide (is_Some (dict_lookup k entries)))
  | PList items =>
      Ok (existsb (fun x => match x with PStr s => String.eqb s k | _ => false end) items)
  | PStr s => Ok (str_contains k s)
  | PNone | PBool _ | PInt _ | PFloat _ => Raise TypeError
  end.

(** [v['k']] with a string subscript. *)
Definition subscript (v : pyval) (k : string) : result pyval :=
  match v with
  | PDict entries =>
      match dict_lookup k entries with
      | Some x => Ok x
      | None => Raise KeyError
      end
  | _ => Raise TypeError
  end.

(** [v.get('k', default)]: only dictionaries have the method. *)
Definition py_get (v : pyval) (k : string) (default : pyval) : result pyval :=
  match v with
  | PDict entries =>
      match dict_lookup k entries with
      | Some x => Ok x
      | None => Ok default
      end
  | _ => Raise AttributeError
  end.

(** Truth value of an object, as [if x] and [x and y] take it. *)
Definition truthy (v : pyval) : bool :=
  match v with
  | PNone => false
  | PBool b => b
  | PInt z => negb (z =? 0)
  | PFloat (S754_zero _) => false
  | PFloat _ => true
  | PStr s => negb (String.eqb s "")
  | PList items => negb (bool_decide (items = []))
  | PDict entries => negb (bool_decide (entries = []))
  end.

(** [for x in items: s = body(s, x)], stopping at the first exception. *)
Fixpoint for_each {S A : Type} (body : S -> A -> result S) (items : list A) (s : S)
  : result S :=
  match items with
  | [] => Ok s
  | x :: rest => s' ← body s x; for_each body rest s'
  end.

(** ** Keys of a built dictionary *)

(** Python looks a key up by hash and equality: [True], [1] and [1.0] are
    one key, and so are [0], [False], [0.0] and [-0.0].  A hashable value is
    therefore stored under a canonical key: a number under its value
    [m * 2^e] with [m] odd (or [0 * 2^0]).  [NaN] is never equal to
    itself, but [json] hands out one [NaN] object and a lookup tries
    identity first, so it is one key as well.  Lists and dictionaries are
    not hashable. *)
Inductive hkey : Type :=
| KNone
| KStr (s : string)
| KNum (m e : Z)
| KInf (negative : bool)
| KNaN.

#[global] Instance hkey_eq_dec : EqDecision hkey.
Proof. solve_decision. Defined.

#[global] Instance hkey_countable : Countable hkey.
Proof.
  refine (inj_countable'
    (fun k => match k with
              | KNone => inl (inl ())
              | KNaN => inl (inr ())
              | KStr s => inr (inl s)
              | KNum m e => inr (inr (inl (m, e)))
              | KInf b => inr (inr (inr b))
              end)
    (fun x => match x with
              | inl (inl ()) => KNone
              | inl (inr ()) => KNaN
              | inr (inl s) => KStr s
              | inr (inr (inl (m, e))) => KNum m e
              | inr (inr (inr b)) => KInf b
              end) _).
  by intros [].
Defined.

(** Strip the trailing zero bits of a mantissa into the exponent. *)
Fixpoint odd_mantissa (m : positive) (e : Z) : positive * Z :=
  match m with
  | xO m' => odd_mantissa m' (e + 1)
  | _ => (m, e)
  end.

Definition num_key (negative : bool) (m : positive) (e : Z) : hkey :=
  let '(m', e') := odd_mantissa m e in
  KNum (if negative then Zneg m' else Zpos m') e'.

(** [hash(v)], as far as equality of keys needs it. *)
Definition hash_key (v : pyval) : result hkey :=
  match v with
  | PNone => Ok KNone
  | PBool true => Ok (KNum 1 0)
  | PBool false => Ok (KNum 0 0)
  | PInt Z0 => Ok (KNum 0 0)
  | PInt (Zpos p) => Ok (num_key false p 0)
  | PInt (Zneg p) => Ok (num_key true p 0)
  | PFloat (S754_zero _) => Ok (KNum 0 0)
  | PFloat (S754_infinity s) => Ok (KInf s)
  | PFloat S754_nan => Ok KNaN
  | PFloat (S754_finite s m e) => Ok (num_key s m e)
  | PStr s => Ok (KStr s)
  | PList _ | PDict _ => Raise TypeError
  end.

(** The dictionary [variable_map] / [env_map]. *)
Abbreviation pydict := (gmap hkey pyval).

(** ** [get_environment_map] *)

(** The body of the loop over [env_data['values']]:
    [if item.get('enabled', False) and 'key' in item and 'value' in item:
         variable_map[item['key']] = item['value']]. *)
Definition add_entry (variable_map : pydict) (item : pyval) : result pydict :=
  enabled ← py_get item "enabled" (PBool false);
  if truthy enabled then
    has_key ← py_in "key" item;
    if has_key : bool then
      has_value ← py_in "value" item;
      if has_value : bool then
        value ← subscript item "value";
        key ← subscript item "key";
        k ← hash_key key;
        Ok (<[k := value]> variable_map)
      else Ok variable_map
    else Ok variable_map
  else Ok variable_map.

Definition get_environment_map (env_data : pyval) : result pydict :=
  has_values ← py_in "values" env_data;
  if has_values : bool then
    values ← subscript env_data "values";
    match values with
    | PList items => for_each add_entry items ∅
    | _ => Ok ∅
    end
  else Ok ∅.

(** ** Strings: [str.replace] and [re.findall] *)

(** [s.replace(old, new)] for a non-empty [old]: the occurrences of [old] are
    taken from the left and do not overlap.  The scan walks [s] one
    character at a time; after an occurrence it passes over the rest of it
    ([skip] characters) without looking. *)
Fixpoint replace_from (old new : string) (skip : nat) (s : string) : string :=
  match s with
  | EmptyString => EmptyString
  | String c s' =>
      match skip with
      | S k => replace_from old new k s'
      | O =>
          if String.prefix old s
          then new +:+ replace_from old new (String.length old - 1) s'
          else String c (replace_from old new 0 s')
      end
  end.

(** With an empty [old], Python puts [new] before every character and at
    the end. *)
Fixpoint intersperse (new s : string) : string :=
  match s with
  | EmptyString => new
  | String c s' => new +:+ String c (intersperse new s')
  end.

Definition str_replace (s old new : string) : string :=
  match old with
  | EmptyString => intersperse new s
  | String _ _ => replace_from old new 0 s
  end.

Definition is_brace (c : ascii) : bool :=
  Ascii.eqb c "{" || Ascii.eqb c "}".

(** The longest prefix of [s] without a brace, and what follows it: the
    greedy [[^{}]+] of the pattern (it may come back empty). *)
Fixpoint take_name (s : string) : string * string :=
  match s with
  | EmptyString => (EmptyString, EmptyString)
  | String c s' =>
      if is_brace c then (EmptyString, s)
      else let '(name, rest) := take_name s' in (String c name, rest)
  end.

(** A match of [\{\{([^{}]+)\}\}] at the start of [s]: the captured name
    and the text after the match.  The name class excludes the closing
    brace, so the greedy name is the only one that can be followed by
    [}}] and there is nothing to backtrack to. *)
Definition match_placeholder (s : string) : option (string * string) :=
  match s with
  | String "{" (String "{" s') =>
      match take_name s' with
      | (String c name, String "}" (String "}" rest)) => Some (String c name, rest)
      | _ => None
      end
  | _ => None
  end.

(** [re.findall(r"\{\{([^{}]+)\}\}", s)]: the names captured by the
    matches found from the left, each search starting where the previous
    match ended. *)
Fixpoint findall_from (skip : nat) (s : string) : list string :=
  match s with
  | EmptyString => []
  | String _ s' =>
      match skip with
      | S k => findall_from k s'
      | O =>
          match match_placeholder s with
          | Some (name, _) => name :: findall_from (String.length name + 3) s'
          | None => findall_from 0 s'
          end
      end
  end.

Definition findall (s : string) : list string := findall_from 0 s.

(** ** [find_and_process_items] *)

(** One entry of the returned list: the tuple [(method, resolved_url)]. *)
Definition resolved_request : Type := pyval * string.

(** [f"{{{{{placeholder}}}}}"]. *)
Definition token (placeholder : string) : string := "{{" +:+ placeholder +:+ "}}".

(** The body of the loop over [placeholders]:
    [if placeholder in env_map:
         resolved_url = resolved_url.replace(token, env_map[placeholder])];
    [replace] refuses a [new] that is not a string. *)
Definition substitute (env_map : pydict) (resolved_url placeholder : string)
  : result string :=
  match env_map !! KStr placeholder with
  | None => Ok resolved_url
  | Some (PStr value) => Ok (str_replace resolved_url (token placeholder) value)
  | Some _ => Raise TypeError
  end.

Definition resolve_url (env_map : pydict) (raw_url : string) : result string :=
  for_each (substitute env_map) (findall raw_url) raw_url.

Arguments str_replace : simpl never.
Arguments token : simpl never.
Arguments substitute : simpl never.
Arguments resolve_url : simpl never.

(** The statements under [try:]. *)
Definition extract_request (env_map : pydict) (collection_item : pyval)
  : result (list resolved_request) :=
  request ← subscript collection_item "request";
  url ← subscript request "url";
  raw_url ← subscript url "raw";
  request ← subscript collection_item "request";
  method ← py_get request "method" (PStr "N/A");
  match raw_url with
  | PStr raw =>
      resolved_url ← resolve_url env_map raw;
      Ok [(method, resolved_url)]
  | _ => Raise TypeError
  end.

(** [resolved_requests.extend(find_and_process_items(item, env_map))]. *)
Definition extend (self : pyval -> result (list resolved_request))
    (resolved_requests : list resolved_request) (item : pyval)
  : result (list resolved_request) :=
  found ← self item; Ok (resolved_requests ++ found).
Arguments extend : simpl never.

(** The function body, with [self] for the recursive calls. *)
Definition find_and_process_items_body
    (self : pyval -> result (list resolved_request))
    (env_map : pydict) (collection_item : pyval) : result (list resolved_request) :=
  match collection_item with
  | PList items =>
      for_each (extend self) items []
  | _ =>
      has_item ← py_in "item" collection_item;
      nested ← (if has_item : bool then
                   item ← subscript collection_item "item";
                   match item with
                   | PList _ => self item
                   | _ => Ok []
                   end
                 else Ok []);
      has_request ← py_in "request" collection_item;
      own ← (if has_request : bool
             then try_except (extract_request env_map collection_item) []
             else Ok []);
      Ok (nested ++ own)
  end.

(** The recursion goes through the elements of a list and through the
    ['item'] entry of a dictionary; it is written on the structure of the
    value.  [find_and_process_items_unfold] below shows that it is the
    function whose body is [find_and_process_items_body]. *)
Fixpoint find_and_process_items (env_map : pydict) (collection_item : pyval)
  {struct collection_item} : result (list resolved_request) :=
  match collection_item with
  | PList items =>
      (fix each (items : list pyval) (resolved_requests : list resolved_request) :=
         match items with
         | [] => Ok resolved_requests
         | item :: rest =>
             match find_and_process_items env_map item with
             | Ok found => each rest (resolved_requests ++ found)
             | Raise e => Raise e
             end
         end) items []
  | PDict entries =>
      nested ← (fix item_entry (entries : list (string * pyval)) :=
                  match entries with
                  | [] => Ok []
                  | (k, v) :: rest =>
                      if String.eqb k "item" then
                        match v with
                        | PList _ => find_and_process_items env_map v
                        | _ => Ok []
                        end
                      else item_entry rest
                  end) entries;
      own ← (if bool_decide (is_Some (dict_lookup "request" entries))
             then try_except (extract_request env_map collection_item) []
             else Ok []);
      Ok (nested ++ own)
  | _ => find_and_process_items_body (fun _ => Ok []) env_map collection_item
  end.
Arguments find_and_process_items : simpl never.


(** What the [try] statement leaves in [resolved_requests]: the tuple, or
    nothing when the extraction raised. *)
Definition own_requests (env_map : pydict) (collection_item : pyval)
  : list resolved_request :=
  match extract_request env_map collection_item with
  | Ok found => found
  | Raise _ => []
  end.

(** ** The shape of a collection *)

(** The values on which the walk runs to its end: every value it comes to
    is a list, a dictionary, or a string without ['item'] in it.  The walk
    comes to the elements of a list and to the elements of the list under
    a dictionary's ['item']. *)
Fixpoint walkable (collection_item : pyval) : bool :=
  match collection_item with
  | PList items => forallb walkable items
  | PDict entries =>
      (fix item_entry (entries : list (string * pyval)) :=
         match entries with
         | [] => true
         | (k, v) :: rest =>
             if String.eqb k "item" then
               match v with
               | PList items => forallb walkable items
               | _ => true
               end
             else item_entry rest
         end) entries
  | PStr s => negb (str_contains "item" s)
  | PNone | PBool _ | PInt _ | PFloat _ => false
  end.

(** The nodes of a collection in depth-first, left-to-right order, a node
    after the nodes under its ['item']: the order in which the walk comes
    to each node's own ['request']. *)
Fixpoint visit (collection_item : pyval) : list pyval :=
  match collection_item with
  | PList items => flat_map visit items
  | PDict entries =>
      (fix item_entry (entries : list (string * pyval)) :=
         match entries with
         | [] => []
         | (k, v) :: rest =>
             if String.eqb k "item" then
               match v with
               | PList items => flat_map visit items
               | _ => []
               end
             else item_entry rest
         end) entries ++ [collection_item]
  | _ => []
  end.

(** The raw URL of a node with a well-formed request descriptor:
    [collection_item['request']['url']['raw']], a string. *)
Definition raw_url_of (collection_item : pyval) : option string :=
  match collection_item with
  | PDict entries =>
      match dict_lookup "request" entries with
      | Some (PDict request) =>
          match dict_lookup "url" request with
          | Some (PDict url) =>
              match dict_lookup "raw" url with
              | Some (PStr raw) => Some raw
              | _ => None
              end
          | _ => None
          end
      | _ => None
      end
  | _ => None
  end.

(** Its method, ['N/A'] when the descriptor has none. *)
Definition method_of (collection_item : pyval) : pyval :=
  match collection_item with
  | PDict entries =>
      match dict_lookup "request" entries with
      | Some (PDict request) =>
          match dict_lookup "method" request with
          | Some method => method
          | None => PStr "N/A"
          end
      | _ => PStr "N/A"
      end
  | _ => PStr "N/A"
  end.

Definition well_formed_request (collection_item : pyval) : bool :=
  bool_decide (is_Some (raw_url_of collection_item)).

(** The number of nodes of a collection that expose a well-formed request
    descriptor. *)
Definition count_requests (collection_item : pyval) : nat :=
  length (filter (fun node => well_formed_request node = true) (visit collection_item)).

(** A variable map as the specification has it: every value is a string. *)
Definition string_valued (env_map : pydict) : Prop :=
  forall k v, env_map !! k = Some v -> exists s, v = PStr s.

(** What the walk does with a value: on a walkable one it returns the
    requests of the visited nodes, on any other it raises [TypeError]. *)
Definition walk_outcome (env_map : pydict) (collection_item : pyval) : Prop :=
  if walkable collection_item
  then find_and_process_items env_map collection_item =
       Ok (flat_map (own_requests env_map) (visit collection_item))
  else find_and_process_items env_map collection_item = Raise TypeError.

(** ** One pass over a URL *)

(** A URL cut at its placeholders: the tokens the pattern matches, and the
    characters between them.  The cut follows the search of [findall]. *)
Inductive piece : Type :=
| Lit (c : ascii)
| Tok (name : string).

Fixpoint pieces_from (skip : nat) (s : string) : list piece :=
  match s with
  | EmptyString => []
  | String c s' =>
      match skip with
      | S k => pieces_from k s'
      | O =>
          match match_placeholder s with
          | Some (name, _) => Tok name :: pieces_from (String.length name + 3) s'
          | None => Lit c :: pieces_from 0 s'
          end
      end
  end.

Definition pieces (s : string) : list piece := pieces_from 0 s.

Definition join (l : list string) : string := fold_right String.append EmptyString l.

(** Substitution as the specification words it: every occurrence of a
    token whose name is a key of the map becomes that key's value, every
    other token and all other text stay as they are. *)
Definition expand_piece (env_map : pydict) (p : piece) : string :=
  match p with
  | Lit c => String c EmptyString
  | Tok name =>
      match env_map !! KStr name with
      | Some (PStr value) => value
      | _ => token name
      end
  end.

Definition single_pass (env_map : pydict) (raw_url : string) : string :=
  join (map (expand_piece env_map) (pieces raw_url)).

(** No opening brace outside the placeholders of a URL, and none in a
    string. *)
Definition no_stray_open (raw_url : string) : bool :=
  forallb (fun p => match p with Lit c => negb (Ascii.eqb c "{") | Tok _ => true end)
    (pieces raw_url).

Fixpoint no_open (s : string) : bool :=
  match s with
  | EmptyString => true
  | String c s' => negb (Ascii.eqb c "{") && no_open s'
  end.

Fixpoint brace_free (s : string) : bool :=
  match s with
  | EmptyString => true
  | String c s' => negb (is_brace c) && brace_free s'
  end.

Fixpoint str_drop (n : nat) (s : string) : string :=
  match n, s with
  | O, _ => s
  | S n', String _ s' => str_drop n' s'
  | S _, EmptyString => EmptyString
  end.

(** The text of a list of pieces, and the pieces of a text that is put in
    for a token. *)
Definition render_piece (p : piece) : string :=
  match p with
  | Lit c => String c EmptyString
  | Tok name => token name
  end.

Definition render (ps : list piece) : string := join (map render_piece ps).

Fixpoint lits (s : string) : list piece :=
  match s with
  | EmptyString => []
  | String c s' => Lit c :: lits s'
  end.

(** A piece as [findall] finds it: a token has a name without braces that
    is not empty; and a piece that is not a stray opening brace. *)
Definition well_formed_piece (p : piece) : bool :=
  match p with
  | Lit _ => true
  | Tok name => brace_free name && negb (String.eqb name "")
  end.

Definition clean_piece (p : piece) : bool :=
  match p with
  | Lit c => negb (Ascii.eqb c "{")
  | Tok name => brace_free name && negb (String.eqb name "")
  end.

(** One [replace] pass, on pieces. *)
Definition replace_piece (placeholder value : string) (p : piece) : list piece :=
  match p with
  | Lit c => [Lit c]
  | Tok name => if String.eqb name placeholder then lits value else [Tok name]
  end.

(** The passes for a list of placeholders, on pieces. *)
Definition expand_under (names : list string) (env_map : pydict) (p : piece) : list piece :=
  match p with
  | Lit c => [Lit c]
  | Tok name =>
      if existsb (String.eqb name) names then
        match env_map !! KStr name with
        | Some (PStr value) => lits value
        | _ => [Tok name]
        end
      else [Tok name]
  end.

Definition names_of (ps : list piece) : list string :=
  flat_map (fun p => match p with Lit _ => [] | Tok name => [name] end) ps.

(** ** The shape of an environment *)

Definition hashable (v : pyval) : bool :=
  match v with
  | PList _ | PDict _ => false
  | _ => true
  end.

(** The entries the loop gets past: dictionaries, whose key can be hashed
    when the entry is enabled and has a key and a value. *)
Definition entry_ok (item : pyval) : bool :=
  match item with
  | PDict entries =>
      match dict_lookup "enabled" entries,
            dict_lookup "key" entries, dict_lookup "value" entries with
      | Some enabled, Some key, Some _ => negb (truthy enabled) || hashable key
      | _, _, _ => true
      end
  | _ => false
  end.

(** The documents [get_environment_map] returns on. *)
Definition loadable (env_data : pyval) : bool :=
  match env_data with
  | PDict entries =>
      match dict_lookup "values" entries with
      | Some (PList items) => forallb entry_ok items
      | _ => true
      end
  | PList items =>
      negb (existsb (fun x => match x with PStr s => String.eqb s "values" | _ => false end)
              items)
  | PStr s => negb (str_contains "values" s)
  | PNone | PBool _ | PInt _ | PFloat _ => false
  end.

(** An entry binds key [k] to value [v]: its enabled flag is truthy, and it
    has a key, which hashes to [k], and the value [v]. *)
Definition binds (item : pyval) (k : hkey) (v : pyval) : Prop :=
  exists entries enabled key,
    item = PDict entries /\
    dict_lookup "enabled" entries = Some enabled /\ truthy enabled = true /\
    dict_lookup "key" entries = Some key /\
    dict_lookup "value" entries = Some v /\
    hash_key key = Ok k.

(** [{"enabled": enabled, "key": key, "value": value}]. *)
Definition env_entry (enabled : bool) (key value : string) : pyval :=
  PDict [("key", PStr key); ("value", PStr value); ("enabled", PBool enabled)].

(** [{"name": "dev", "values": items}]. *)
Definition env_document (items : list pyval) : pyval :=
  PDict [("name", PStr "dev"); ("values", PList items)].

(** ** Sample documents *)

(** [{"request": {"method": method, "url": {"raw": raw}}}]. *)
Definition request_node (method raw : string) : pyval :=
  PDict [("request", PDict [("method", PStr method); ("url", PDict [("raw", PStr raw)])])].

(** [{"name": name, "item": items}]. *)
Definition folder_node (name : string) (items : list pyval) : pyval :=
  PDict [("name", PStr name); ("item", PList items)].

(** [{"host": "api.example.com", "id": "42"}]. *)
Definition sample_env : pydict :=
  <[KStr "host" := PStr "api.example.com"]> (<[KStr "id" := PStr "42"]> ∅).

(** A folder that carries a request of its own, next to a request whose
    [url] has no [raw], and a plain request. *)
Definition sample_collection : pyval :=
  PList [
    PDict [("item", PList [request_node "GET" "https://{{host}}/users/{{id}}";
                            folder_node "inner" [request_node "POST" "{{host}}/v1"]]);
           ("request", PDict [("url", PDict [("raw", PStr "{{host}}/folder")])])];
    PDict [("request", PDict [("method", PStr "PUT"); ("url", PDict [])])];
    request_node "DELETE" "{{base}}/x"
  ].

(** [{"a": "{{b}}", "b": "X"}]: the value of one variable is the token of
    another. *)
Definition nested_env : pydict :=
  <[KStr "a" := PStr "{{b}}"]> (<[KStr "b" := PStr "X"]> ∅).

(** [{"a": "<{{a}}>"}]: the value of a variable holds its own token. *)
Definition self_env : pydict := <[KStr "a" := PStr "<{{a}}>"]> ∅.

(** ** The store *)

(** To speak of mutation, the same function is read once more with the
    objects where Python has them: in a store.  Lists and dictionaries are
    objects of the store, known by their location; [None], booleans,
    numbers, strings and tuples cannot be changed and are values.  A store
    is the list of its objects, a location an index in it; a new object
    goes to the end. *)
Inductive val : Type :=
| VNone
| VBool (b : bool)
| VInt (z : Z)
| VFloat (f : spec_float)
| VStr (s : string)
| VTuple (first second : val)
| VRef (l : nat).

Inductive obj : Type :=
| OList (items : list val)
| ODict (entries : list (string * val))
| OMap (bindings : gmap hkey val).

Abbreviation store := (list obj).

(** What a statement does: it returns, it raises, or it is stuck (on a
    location with no object, or for want of fuel), which no run of the
    program on loaded documents is. *)
Inductive outcome (A : Type) : Type :=
| Returns (a : A)
| Raises (e : exn)
| Stuck.
Arguments Returns {A} a.
Arguments Raises {A} e.
Arguments Stuck {A}.

#[global] Instance outcome_ret : MRet outcome := fun A a => Returns a.
#[global] Instance outcome_bind : MBind outcome := fun A B k o =>
  match o with
  | Returns a => k a
  | Raises e => Raises e
  | Stuck => Stuck
  end.

(** Statements that read and write the store. *)
Definition stateful (A : Type) : Type := store -> outcome A * store.

#[global] Instance stateful_ret : MRet stateful := fun A a h => (Returns a, h).
#[global] Instance stateful_bind : MBind stateful := fun A B k c h =>
  match c h with
  | (Returns a, h') => k a h'
  | (Raises e, h') => (Raises e, h')
  | (Stuck, h') => (Stuck, h')
  end.

(** An expression that only reads. *)
Definition read {A : Type} (e : store -> outcome A) : stateful A := fun h => (e h, h).

(** [try: body except (KeyError, TypeError): pass]. *)
Definition try_pass (body : stateful unit) : stateful unit := fun h =>
  match body h with
  | (Raises KeyError, h') | (Raises TypeError, h') => (Returns (), h')
  | r => r
  end.

Fixpoint entry_lookup (k : string) (entries : list (string * val)) : option val :=
  match entries with
  | [] => None
  | (k', v) :: rest => if String.eqb k' k then Some v else entry_lookup k rest
  end.

Definition is_str (k : string) (v : val) : bool :=
  match v with
  | VStr s => String.eqb s k
  | _ => false
  end.

(** [isinstance(v, list)]. *)
Definition store_is_list (v : val) (h : store) : outcome bool :=
  match v with
  | VRef l =>
      match h !! l with
      | Some (OList _) => Returns true
      | Some _ => Returns false
      | None => Stuck
      end
  | _ => Returns false
  end.

(** ['k' in v]. *)
Definition store_in (k : string) (v : val) (h : store) : outcome bool :=
  match v with
  | VRef l =>
      match h !! l with
      | Some (OList items) => Returns (existsb (is_str k) items)
      | Some (ODict entries) => Returns (bool_decide (is_Some (entry_lookup k entries)))
      | Some (OMap bindings) => Returns (bool_decide (is_Some (bindings !! KStr k)))
      | None => Stuck
      end
  | VStr s => Returns (str_contains k s)
  | VTuple first second => Returns (is_str k first || is_str k second)
  | VNone | VBool _ | VInt _ | VFloat _ => Raises TypeError
  end.

(** [v['k']]. *)
Definition store_subscript (v : val) (k : string) (h : store) : outcome val :=
  match v with
  | VRef l =>
      match h !! l with
      | Some (OList _) => Raises TypeError
      | Some (ODict entries) =>
          match entry_lookup k entries with
          | Some x => Returns x
          | None => Raises KeyError
          end
      | Some (OMap bindings) =>
          match bindings !! KStr k with
          | Some x => Returns x
          | None => Raises KeyError
          end
      | None => Stuck
      end
  | _ => Raises TypeError
  end.

(** [v.get('k', default)]. *)
Definition store_get (v : val) (k : string) (default : val) (h : store) : outcome val :=
  match v with
  | VRef l =>
      match h !! l with
      | Some (OList _) => Raises AttributeError
      | Some (ODict entries) =>
          match entry_lookup k entries with
          | Some x => Returns x
          | None => Returns default
          end
      | Some (OMap bindings) =>
          match bindings !! KStr k with
          | Some x => Returns x
          | None => Returns default
          end
      | None => Stuck
      end
  | _ => Raises AttributeError
  end.

(** [for x in items: s = body(s, x)] over values that cannot change. *)
Fixpoint for_each_read {S A : Type} (body : S -> A -> outcome S) (items : list A) (s : S)
  : outcome S :=
  match items with
  | [] => Returns s
  | x :: rest => s' ← body s x; for_each_read body rest s'
  end.

(** The body of the loop over [placeholders], which reads [env_map]. *)
Definition store_substitute (env_map : val) (h : store) (resolved_url placeholder : string)
  : outcome string :=
  found ← store_in placeholder env_map h;
  if found : bool then
    value ← store_subscript env_map placeholder h;
    match value with
    | VStr value => Returns (str_replace resolved_url (token placeholder) value)
    | _ => Raises TypeError
    end
  else Returns resolved_url.

(** The statements under [try:] up to the tuple; they only read.  (The
    list [placeholders] is the function's own and is gone when it
    returns; it is kept out of the store.) *)
Definition store_extract (env_map collection_item : val) (h : store) : outcome val :=
  request ← store_subscript collection_item "request" h;
  url ← store_subscript request "url" h;
  raw_url ← store_subscript url "raw" h;
  request ← store_subscript collection_item "request" h;
  method ← store_get request "method" (VStr "N/A") h;
  match raw_url with
  | VStr raw =>
      resolved_url ← for_each_read (store_substitute env_map h) (findall raw) raw;
      Returns (VTuple method (VStr resolved_url))
  | _ => Raises TypeError
  end.

(** [resolved_requests = []]: a new list, at the end of the store. *)
Definition new_list : stateful nat := fun h => (Returns (length h), h ++ [OList []]).

(** [resolved_requests.extend(found)], with [found] a list. *)
Definition list_extend (resolved_requests : nat) (found : val) : stateful unit := fun h =>
  match h !! resolved_requests, found with
  | Some (OList mine), VRef l =>
      match h !! l with
      | Some (OList theirs) =>
          (Returns (), <[resolved_requests := OList (mine ++ theirs)]> h)
      | _ => (Stuck, h)
      end
  | _, _ => (Stuck, h)
  end.

(** [resolved_requests.append(x)]. *)
Definition list_append (resolved_requests : nat) (x : val) : stateful unit := fun h =>
  match h !! resolved_requests with
  | Some (OList mine) => (Returns (), <[resolved_requests := OList (mine ++ [x])]> h)
  | _ => (Stuck, h)
  end.

(** The element a [for] loop over the list [v] takes at its turn [i]: the
    list is read again at every turn. *)
Definition next_item (v : val) (i : nat) (h : store) : outcome (option val) :=
  match v with
  | VRef l =>
      match h !! l with
      | Some (OList items) => Returns (items !! i)
      | _ => Stuck
      end
  | _ => Stuck
  end.

(** [for item in collection_item:
         resolved_requests.extend(find_and_process_items(item, env_map))
     return resolved_requests]. *)
Fixpoint each_item (self : val -> stateful val) (resolved_requests : nat)
    (collection_item : val) (turns i : nat) : stateful val :=
  match turns with
  | O => fun h => (Stuck, h)
  | S turns =>
      item ← read (next_item collection_item i);
      match item with
      | None => mret (VRef resolved_requests)
      | Some item =>
          found ← self item;
          _ ← list_extend resolved_requests found;
          each_item self resolved_requests collection_item turns (S i)
      end
  end.

(** [if 'item' in collection_item and isinstance(collection_item['item'], list):
         resolved_requests.extend(find_and_process_items(collection_item['item'], env_map))]. *)
Definition extend_with_nested (self : val -> stateful val) (resolved_requests : nat)
    (collection_item : val) : stateful unit :=
  has_item ← read (store_in "item" collection_item);
  if has_item : bool then
    item ← read (store_subscript collection_item "item");
    is_list ← read (store_is_list item);
    if is_list : bool then
      item ← read (store_subscript collection_item "item");
      found ← self item;
      list_extend resolved_requests found
    else mret ()
  else mret ().

(** [if 'request' in collection_item:
         try: ...; resolved_requests.append((method, resolved_url))
         except (KeyError, TypeError): pass]. *)
Definition append_own_request (resolved_requests : nat) (env_map collection_item : val)
  : stateful unit :=
  has_request ← read (store_in "request" collection_item);
  if has_request : bool then
    try_pass (request ← read (store_extract env_map collection_item);
              list_append resolved_requests request)
  else mret ().

(** The function body over the store, with [self] for the recursive
    calls. *)
Definition find_and_process_items_store_body
    (self : val -> stateful val) (turns : nat)
    (env_map collection_item : val) : stateful val :=
  resolved_requests ← new_list;
  is_list ← read (store_is_list collection_item);
  if is_list : bool then
    each_item self resolved_requests collection_item turns 0
  else
    _ ← extend_with_nested self resolved_requests collection_item;
    _ ← append_own_request resolved_requests env_map collection_item;
    mret (VRef resolved_requests).

(** [find_and_process_items] over the store.  The store has no shape to
    recurse on; [fuel] bounds the depth of the calls and the turns of a
    loop. *)
Fixpoint find_and_process_items_store (fuel : nat) (env_map collection_item : val)
  : stateful val :=
  match fuel with
  | O => fun h => (Stuck, h)
  | S fuel =>
      find_and_process_items_store_body
        (find_and_process_items_store fuel env_map) fuel env_map collection_item
  end.

(** A value of the store stands for a document: the objects it reaches
    hold what the document holds. *)
Unset Elimination Schemes.
Inductive stands_for (h : store) : val -> pyval -> Prop :=
| stands_none : stands_for h VNone PNone
| stands_bool b : stands_for h (VBool b) (PBool b)
| stands_int z : stands_for h (VInt z) (PInt z)
| stands_float f : stands_for h (VFloat f) (PFloat f)
| stands_str s : stands_for h (VStr s) (PStr s)
| stands_list l vs items :
    h !! l = Some (OList vs) ->
    Forall2 (stands_for h) vs items ->
    stands_for h (VRef l) (PList items)
| stands_dict l ves entries :
    h !! l = Some (ODict ves) ->
    Forall2 (fun ve e => ve.1 = e.1 /\ stands_for h ve.2 e.2) ves entries ->
    stands_for h (VRef l) (PDict entries).
Set Elimination Schemes.

(** The same for the variable map. *)
Definition stands_for_map (h : store) (v : val) (env_map : pydict) : Prop :=
  exists l bindings,
    v = VRef l /\ h !! l = Some (OMap bindings) /\
    forall k, option_Forall2 (stands_for h) (bindings !! k) (env_map !! k).

(** A tuple of the store stands for a resolved request. *)
Definition stands_for_request (h : store) (v : val) (r : resolved_request) : Prop :=
  exists method, v = VTuple method (VStr r.2) /\ stands_for h method r.1.

(** An outcome over the store against a result on documents: the same
    exception, or values related by [R]. *)
Definition sim {A B : Type} (R : B -> A -> Prop) (o : outcome B) (r : result A) : Prop :=
  match r, o with
  | Ok a, Returns b => R b a
  | Raise e, Raises e' => e' = e
  | _, _ => False
  end.

(** The outcome of a run over the store agrees with the result of the
    function on documents: the same exception, or a list in the store [h]
    whose tuples stand for the same requests.  The documents are those of
    the store [base] the run started from. *)
Definition agrees (base h : store) (o : outcome val)
    (r : result (list resolved_request)) : Prop :=
  sim (fun v resolved_requests =>
         exists l vs,
           v = VRef l /\ h !! l = Some (OList vs) /\
           Forall2 (stands_for_request base) vs resolved_requests) o r.

(** Fuel enough for a document. *)
Fixpoint weight (collection_item : pyval) : nat :=
  match collection_item with
  | PList items => 2 + length items + list_sum (map weight items)
  | PDict entries => 1 + list_sum (map (fun kv => weight kv.2) entries)
  | _ => 1
  end.

(** What a run on [collection_item] does from any store that begins with
    the store [base] the documents are in: it leaves the store as it was
    and puts new objects at its end, and its outcome agrees with the
    function on documents. *)
Definition run_spec (env : val) (env_map : pydict) (collection_item : pyval) : Prop :=
  forall fuel base more v,
    (weight collection_item <= fuel)%nat ->
    stands_for base v collection_item ->
    stands_for_map base env env_map ->
    exists o ext,
      find_and_process_items_store fuel env v (base ++ more) = (o, (base ++ more) ++ ext)
      /\ agrees base ((base ++ more) ++ ext) o
           (find_and_process_items env_map collection_item).

(** A store with the map [{"host": "api.example.com"}] at location 0 and
    the collection [[{"request": {"method": "GET", "url": {"raw":
    "{{host}}/a"}}}]] at location 4. *)
Definition sample_store : store :=
  [ OMap (<[KStr "host" := VStr "api.example.com"]> ∅);
    ODict [("raw", VStr "{{host}}/a")];
    ODict [("method", VStr "GET"); ("url", VRef 1)];
    ODict [("request", VRef 2)];
    OList [VRef 3] ].

(** ** [main] *)

(** [main] talks to the outside: it reads two lines, two files, and
    prints.  The outside is given to the model as what it answers: the two
    lines typed, and for a path what [open] and [json.load] make of it.
    What [main] does is the list of what it prints, in order.  ([input]
    running out of lines and [print] failing on a character the terminal
    cannot show are not modelled.) *)

Definition quote : ascii := ascii_of_nat 34.
Definition newline : ascii := ascii_of_nat 10.

(** The two characters [strip] is given: the space and the double quote. *)
Definition is_stripped (c : ascii) : bool := Ascii.eqb c " " || Ascii.eqb c quote.

(** [s.strip(chars)] with these two characters: they are taken off both
    ends of [s]. *)
Fixpoint lstrip (s : string) : string :=
  match s with
  | EmptyString => EmptyString
  | String c s' => if is_stripped c then lstrip s' else s
  end.

Fixpoint rstrip (s : string) : string :=
  match s with
  | EmptyString => EmptyString
  | String c s' =>
      match rstrip s' with
      | EmptyString => if is_stripped c then EmptyString else String c EmptyString
      | String c' r => String c (String c' r)
      end
  end.

Definition strip (s : string) : string := rstrip (lstrip s).

(** What [with open(path, 'r', encoding='utf-8') as f: json.load(f)] comes
    to: the loaded document, or one of the two exceptions [main] names, or
    any other exception. *)
Inductive loaded : Type :=
| Loaded (data : pyval)
| FileNotFoundError
| JSONDecodeError
| OtherError.

(** One call of [print]: a fixed text, a row of the table
    ([f"| {i} | `{method}` | {url} |"]), or the report of an exception
    that [except Exception as e] caught (from the two functions, or from
    loading). *)
Inductive printed : Type :=
| Text (s : string)
| Row (i : nat) (method : pyval) (url : string)
| Unexpected (e : option exn).

Definition warning_text : string :=
  String newline "Warning: No enabled variables found in the environment file.".
Definition title_text : string :=
  String newline "## Resolved API Endpoints" +:+ String newline "".
Definition head_text : string := "| S.No | Method | API URL |".
Definition rule_text : string := "|:----:|:-------|:--------|".
Definition end_text : string := String newline "".
Definition no_requests_text : string :=
  String newline "No API requests with URLs were found in the collection.".
Definition not_found_text : string :=
  String newline
    "Error: One of the files was not found. Please check the paths and try again.".
Definition decode_text : string :=
  String newline "Error: Failed to decode JSON. Please ensure both files are valid JSON.".

(** [for i, (method, url) in enumerate(final_requests, i): print(row)]. *)
Fixpoint print_rows (i : nat) (final_requests : list resolved_request) : list printed :=
  match final_requests with
  | [] => []
  | (method, url) :: rest => Row i method url :: print_rows (S i) rest
  end.

(** The statements of [main] after the two documents are loaded. *)
Definition report (collection_data env_data : pyval) : list printed :=
  match get_environment_map env_data with
  | Raise e => [Unexpected (Some e)]
  | Ok env_map =>
      if decide (env_map = ∅) then [Text warning_text]
      else
        match (item ← py_get collection_data "item" (PList []);
               find_and_process_items env_map item) with
        | Raise e => [Unexpected (Some e)]
        | Ok [] => [Text no_requests_text]
        | Ok final_requests =>
            [Text title_text; Text head_text; Text rule_text]
            ++ print_rows 1 final_requests ++ [Text end_text]
        end
  end.

Definition main (first_line second_line : string) (load : string -> loaded)
  : list printed :=
  let collection_file_path := strip first_line in
  let env_file_path := strip second_line in
  match load collection_file_path with
  | Loaded collection_data =>
      match load env_file_path with
      | Loaded env_data => report collection_data env_data
      | FileNotFoundError => [Text not_found_text]
      | JSONDecodeError => [Text decode_text]
      | OtherError => [Unexpected None]
      end
  | FileNotFoundError => [Text not_found_text]
  | JSONDecodeError => [Text decode_text]
  | OtherError => [Unexpected None]
  end.

(** The rows among what was printed. *)
Definition is_row (p : printed) : bool :=
  match p with
  | Row _ _ _ => true
  | _ => false
  end.

Definition row_count (out : list printed) : nat := length (List.filter is_row out).

(** The node [main] starts the walk from: [collection_data.get('item', [])]. *)
Definition root_of (collection_data : pyval) : option pyval :=
  match collection_data with
  | PDict entries =>
      match dict_lookup "item" entries with
      | Some item => Some item
      | None => Some (PList [])
      end
  | _ => None
  end.

(** The first and the last character of a string. *)
Definition first_char (s : string) : option ascii :=
  match s with
  | EmptyString => None
  | String c _ => Some c
  end.

Fixpoint last_char (s : string) : option ascii :=
  match s with
  | EmptyString => None
  | String c EmptyString => Some c
  | String _ s' => last_char s'
  end.

Definition clean_end (c : option ascii) : bool :=
  match c with
  | Some c => negb (is_stripped c)
  | None => true
  end.

(** A string of stripped characters only. *)
Fixpoint only_stripped (s : string) : bool :=
  match s with
  | EmptyString => true
  | String c s' => is_stripped c && only_stripped s'
  end.

(** What an entry of ['values'] puts into the map, if anything: the
    hashed key and the value. *)
Definition binding (item : pyval) : option (hkey * pyval) :=
  match item with
  | PDict entries =>
      match dict_lookup "enabled" entries,
            dict_lookup "key" entries, dict_lookup "value" entries with
      | Some enabled, Some key, Some value =>
          if truthy enabled then
            match hash_key key with
            | Ok k => Some (k, value)
            | Raise _ => None
            end
          else None
      | _, _, _ => None
      end
  | _ => None
  end.

(** The bindings of a list of entries, in order. *)
Definition bindings_of (items : list pyval) : list (hkey * pyval) := omap binding items.

Definition is_string (v : pyval) : bool :=
  match v with
  | PStr _ => true
  | _ => false
  end.

(** The lists of a store remain lists: a location that holds a list in
    [h] holds a list in [h'].  A statement keeps the lists when the store
    it leaves is such, whatever the store it starts from. *)
Definition keeps_lists (h h' : store) : Prop :=
  forall l items, h !! l = Some (OList items) -> exists items', h' !! l = Some (OList items').

Definition list_keeping {A : Type} (c : stateful A) : Prop :=
  forall h, keeps_lists h (c h).2.
(** * Properties *)

(** ** The result monad *)

Lemma bind_Ok {A B : Type} (a : A) (k : A -> result B) : (Ok a ≫= k) = k a.
Proof. reflexivity. Qed.

Lemma bind_Raise {A B : Type} (e : exn) (k : A -> result B) : (Raise e ≫= k) = Raise e.
Proof. reflexivity. Qed.

Lemma bind_returns {A B : Type} (r : result A) (k : A -> result B) :
  returns (r ≫= k) <-> exists a, r = Ok a /\ returns (k a).
Proof.
  split.
  - destruct r as [a|e]; intros [b Hb]; [|discriminate]. exists a. split; [done|]. by exists b.
  - intros (a & -> & Hk). done.
Qed.

Lemma bind_ext {A B : Type} (r : result A) (k k' : A -> result B) :
  (forall a, k a = k' a) -> (r ≫= k) = (r ≫= k').
Proof. intros Hk. destruct r; simpl; [apply Hk|done]. Qed.

Lemma returns_Ok {A : Type} (a : A) : returns (Ok a).
Proof. by exists a. Qed.

Lemma not_returns_Raise {A : Type} (e : exn) : ~ returns (@Raise A e).
Proof. by intros [a Ha]. Qed.

(** ** The walker satisfies the equation of its source *)

Lemma extend_eq self acc item :
  extend self acc item =
  match self item with
  | Ok found => Ok (acc ++ found)
  | Raise e => Raise e
  end.
Proof. reflexivity. Qed.

Section walker_equations.
Variable env_map : pydict.

Let walk_each :=
  fix each (items : list pyval) (resolved_requests : list resolved_request) :=
    match items with
    | [] => Ok resolved_requests
    | item :: rest =>
        match find_and_process_items env_map item with
        | Ok found => each rest (resolved_requests ++ found)
        | Raise e => Raise e
        end
    end.

Lemma walk_each_for_each items acc :
  walk_each items acc = for_each (extend (find_and_process_items env_map)) items acc.
Proof.
  revert acc. induction items as [|item rest IH]; intros acc; simpl; [done|].
  rewrite extend_eq.
  destruct (find_and_process_items env_map item) as [found|e]; simpl; [apply IH|done].
Qed.

Lemma find_and_process_items_unfold collection_item :
  find_and_process_items env_map collection_item =
  find_and_process_items_body (find_and_process_items env_map) env_map collection_item.
Proof.
  destruct collection_item as [|b|z|f|s|items|entries]; try reflexivity.
  (* on a string, [s['item']] raises before any recursive call *)
  - apply (walk_each_for_each items []).
  - change (find_and_process_items env_map (PDict entries)) with
      (nested ← (fix item_entry (entries : list (string * pyval)) :=
                match entries with
                | [] => Ok []
                | (k, v) :: rest =>
                    if String.eqb k "item" then
                      match v with
                      | PList _ => find_and_process_items env_map v
                      | _ => Ok []
                      end
                    else item_entry rest
                end) entries;
       own ← (if bool_decide (is_Some (dict_lookup "request" entries))
              then try_except (extract_request env_map (PDict entries)) []
              else Ok []);
       Ok (nested ++ own)).
    unfold find_and_process_items_body, py_in, subscript. simpl mbind at 3.
    f_equal.
    induction entries as [|[k v] rest IH]; [done|].
    simpl dict_lookup. destruct (String.eqb k "item") eqn:Hk.
    + simpl. destruct v; reflexivity.
    + rewrite IH. reflexivity.
Qed.
End walker_equations.

(** ** Equations for lists and dictionaries *)

Lemma for_each_app {S A : Type} (body : S -> A -> result S) (l1 l2 : list A) (s : S) :
  for_each body (l1 ++ l2) s = (s' ← for_each body l1 s; for_each body l2 s').
Proof.
  revert s. induction l1 as [|x l1 IH]; intros s; simpl; [done|].
  destruct (body s x) as [s'|e]; simpl; [apply IH|done].
Qed.

Section walker_lemmas.
Variable env_map : pydict.

Local Abbreviation walk := (find_and_process_items env_map).

Lemma extend_from_empty items acc :
  for_each (extend walk) items acc =
  (more ← for_each (extend walk) items []; Ok (acc ++ more)).
Proof.
  revert acc. induction items as [|item rest IH]; intros acc; simpl for_each.
  - simpl. by rewrite app_nil_r.
  - rewrite !extend_eq. destruct (walk item) as [found|e]; simpl; [|done].
    rewrite (IH (acc ++ found)), (IH found).
    destruct (for_each (extend walk) rest []) as [more|e]; simpl; [|done].
    by rewrite app_assoc.
Qed.

Lemma walk_nil : walk (PList []) = Ok [].
Proof. reflexivity. Qed.

Lemma walk_cons item rest :
  walk (PList (item :: rest)) =
  (found ← walk item; more ← walk (PList rest); Ok (found ++ more)).
Proof.
  rewrite !(find_and_process_items_unfold _ (PList _)).
  unfold find_and_process_items_body. simpl for_each. rewrite extend_eq.
  destruct (walk item) as [found|e]; simpl; [|done].
  apply extend_from_empty.
Qed.

Lemma walk_app l1 l2 :
  walk (PList (l1 ++ l2)) =
  (a ← walk (PList l1); b ← walk (PList l2); Ok (a ++ b)).
Proof.
  induction l1 as [|x l1 IH]; simpl app.
  - rewrite walk_nil. simpl. by destruct (walk (PList l2)).
  - rewrite !walk_cons, IH. destruct (walk x) as [found|e]; simpl; [|done].
    destruct (walk (PList l1)) as [a|e]; simpl; [|done].
    destruct (walk (PList l2)) as [b|e]; simpl; [|done].
    by rewrite app_assoc.
Qed.

Lemma substitute_raises resolved_url placeholder e :
  substitute env_map resolved_url placeholder = Raise e -> e = TypeError.
Proof.
  unfold substitute. destruct (env_map !! KStr placeholder) as [[]|]; congruence.
Qed.

Lemma resolve_url_raises raw_url e :
  resolve_url env_map raw_url = Raise e -> e = TypeError.
Proof.
  unfold resolve_url. generalize (findall raw_url) as placeholders.
  intros placeholders. generalize raw_url as resolved_url.
  induction placeholders as [|placeholder rest IH]; intros resolved_url; simpl; [done|].
  destruct (substitute env_map resolved_url placeholder) as [s'|e'] eqn:Hs; simpl.
  - apply IH.
  - intros [= ->]. by eapply substitute_raises.
Qed.

(** On a dictionary the [try] statement never lets an exception out:
    [.get] is only reached on a dictionary. *)
Lemma extract_request_no_AttributeError entries :
  extract_request env_map (PDict entries) <> Raise AttributeError.
Proof.
  unfold extract_request, subscript.
  destruct (dict_lookup "request" entries) as [request|]; simpl; [|done].
  destruct request as [| | | | | |request]; simpl; try done.
  destruct (dict_lookup "url" request) as [url|]; simpl; [|done].
  destruct url as [| | | | | |url]; simpl; try done.
  destruct (dict_lookup "raw" url) as [raw_url|]; simpl; [|done].
  assert (forall method : pyval,
    match raw_url with
    | PStr raw =>
        resolved_url ← resolve_url env_map raw;
        Ok [(method, resolved_url) : resolved_request]
    | _ => Raise TypeError
    end <> Raise AttributeError) as Hrest.
  { intros method. destruct raw_url as [| | | |raw| |]; try done.
    destruct (resolve_url env_map raw) as [resolved_url|e] eqn:Hr; simpl; [done|].
    apply resolve_url_raises in Hr as ->. done. }
  destruct (dict_lookup "method" request); apply Hrest.
Qed.

Lemma try_extract_request entries :
  (if bool_decide (is_Some (dict_lookup "request" entries))
   then try_except (extract_request env_map (PDict entries)) []
   else Ok []) = Ok (own_requests env_map (PDict entries)).
Proof.
  pose proof (extract_request_no_AttributeError entries) as Hattr.
  unfold own_requests. case_bool_decide as Hreq.
  - destruct (extract_request env_map (PDict entries)) as [found|[]]; simpl; done.
  - unfold extract_request, subscript.
    destruct (dict_lookup "request" entries); [|done]. by destruct Hreq.
Qed.

Lemma walk_dict entries :
  walk (PDict entries) =
  (nested ← match dict_lookup "item" entries with
            | Some (PList items) => walk (PList items)
            | _ => Ok []
            end;
   Ok (nested ++ own_requests env_map (PDict entries))).
Proof.
  rewrite (find_and_process_items_unfold _ (PDict _)).
  unfold find_and_process_items_body, py_in, subscript. rewrite bind_Ok.
  transitivity
    (nested ← match dict_lookup "item" entries with
              | Some (PList items) => walk (PList items)
              | _ => Ok []
              end;
     has_request ← Ok (bool_decide (is_Some (dict_lookup "request" entries)));
     own ← (if has_request : bool
            then try_except (extract_request env_map (PDict entries)) []
            else Ok []);
     Ok (nested ++ own)).
  - f_equal. destruct (dict_lookup "item" entries) as [item|] eqn:Hitem.
    + rewrite bool_decide_true by eauto. by destruct item.
    + rewrite bool_decide_false by (by intros [? ?]). done.
  - apply bind_ext; intros nested. by rewrite bind_Ok, try_extract_request.
Qed.

Lemma walk_str s :
  walk (PStr s) = if str_contains "item" s then Raise TypeError else Ok [].
Proof.
  rewrite find_and_process_items_unfold. simpl.
  destruct (str_contains "item" s); [done|]. simpl.
  by destruct (str_contains "request" s).
Qed.
End walker_lemmas.

(** ** Shapes *)

Lemma dict_lookup_In k entries v :
  dict_lookup k entries = Some v -> In (k, v) entries.
Proof.
  induction entries as [|[k' v'] rest IH]; simpl; [done|].
  destruct (String.eqb k' k) eqn:Hk.
  - apply String.eqb_eq in Hk as ->. intros [= ->]. by left.
  - intros Hv. right. by apply IH.
Qed.

Lemma walkable_dict entries :
  walkable (PDict entries) =
  match dict_lookup "item" entries with
  | Some (PList items) => forallb walkable items
  | _ => true
  end.
Proof.
  simpl. induction entries as [|[k v] rest IH]; simpl; [done|].
  destruct (String.eqb k "item"); [by destruct v|apply IH].
Qed.

Lemma visit_dict entries :
  visit (PDict entries) =
  match dict_lookup "item" entries with
  | Some (PList items) => flat_map visit items
  | _ => []
  end ++ [PDict entries].
Proof.
  simpl. f_equal. induction entries as [|[k v] rest IH]; simpl; [done|].
  destruct (String.eqb k "item"); [by destruct v|apply IH].
Qed.

Section walk_shape.
Variable env_map : pydict.

Local Abbreviation walk := (find_and_process_items env_map).

Local Abbreviation walk_spec := (walk_outcome env_map).

Lemma walk_spec_list items :
  Forall walk_spec items -> walk_spec (PList items).
Proof.
  unfold walk_outcome at 2. simpl.
  induction 1 as [|item rest Hitem Hrest IH]; simpl; [done|].
  rewrite walk_cons. unfold walk_outcome in Hitem.
  destruct (walkable item); rewrite Hitem; simpl; [|done].
  destruct (forallb walkable rest); rewrite IH; simpl; [|done].
  by rewrite flat_map_app.
Qed.

Lemma walk_walk_spec collection_item : walk_spec collection_item.
Proof.
  induction collection_item as [|b|z|f|s|items IH|entries IH] using pyval_nested_ind;
    try reflexivity.
  - unfold walk_outcome. rewrite walk_str. simpl. by destruct (str_contains "item" s).
  - by apply walk_spec_list.
  - unfold walk_outcome. rewrite walkable_dict, visit_dict, walk_dict.
    destruct (dict_lookup "item" entries) as [item|] eqn:Hitem;
      [|by rewrite flat_map_app; simpl; rewrite app_nil_r].
    apply dict_lookup_In in Hitem.
    rewrite List.Forall_forall in IH. specialize (IH _ Hitem). simpl in IH.
    destruct item as [| | | | |items|];
      try (by rewrite flat_map_app; simpl; rewrite app_nil_r).
    unfold walk_outcome in IH. simpl in IH.
    destruct (forallb walkable items); rewrite IH; simpl; [|done].
    by rewrite flat_map_app; simpl; rewrite app_nil_r.
Qed.

Lemma walk_walkable collection_item :
  walkable collection_item = true ->
  walk collection_item = Ok (flat_map (own_requests env_map) (visit collection_item)).
Proof. intros H. pose proof (walk_walk_spec collection_item) as Hs. unfold walk_outcome in Hs. by rewrite H in Hs. Qed.

Lemma walk_not_walkable collection_item :
  walkable collection_item = false -> walk collection_item = Raise TypeError.
Proof. intros H. pose proof (walk_walk_spec collection_item) as Hs. unfold walk_outcome in Hs. by rewrite H in Hs. Qed.
End walk_shape.

(** ** A node's own request *)

Section own_request.
Variable env_map : pydict.

Lemma extract_request_raw collection_item :
  extract_request env_map collection_item =
  match raw_url_of collection_item with
  | Some raw =>
      resolved_url ← resolve_url env_map raw;
      Ok [(method_of collection_item, resolved_url)]
  | None =>
      match extract_request env_map collection_item with
      | Ok _ => Raise TypeError
      | Raise e => Raise e
      end
  end.
Proof.
  unfold extract_request, raw_url_of, method_of, subscript, py_get.
  destruct collection_item as [| | | | | |entries]; try done.
  destruct (dict_lookup "request" entries) as [request|]; simpl; [|done].
  destruct request as [| | | | | |request]; simpl; try done.
  destruct (dict_lookup "url" request) as [url|]; simpl; [|done].
  destruct url as [| | | | | |url]; simpl; try done.
  destruct (dict_lookup "raw" url) as [raw_url|]; simpl; [|done].
  destruct (dict_lookup "method" request); simpl;
    destruct raw_url as [| | | |raw| |]; done.
Qed.

Lemma extract_request_malformed collection_item :
  raw_url_of collection_item = None ->
  exists e, extract_request env_map collection_item = Raise e.
Proof.
  intros Hraw. rewrite extract_request_raw, Hraw.
  destruct (extract_request env_map collection_item); eauto.
Qed.

Lemma own_requests_raw collection_item :
  own_requests env_map collection_item =
  match raw_url_of collection_item with
  | Some raw =>
      match resolve_url env_map raw with
      | Ok resolved_url => [(method_of collection_item, resolved_url)]
      | Raise _ => []
      end
  | None => []
  end.
Proof.
  unfold own_requests. destruct (raw_url_of collection_item) as [raw|] eqn:Hraw.
  - rewrite extract_request_raw, Hraw. by destruct (resolve_url env_map raw).
  - by destruct (extract_request_malformed _ Hraw) as [e ->].
Qed.

(** The loop over the placeholders fails exactly when it meets a
    placeholder bound to something that is not a string. *)
Lemma for_each_substitute_returns placeholders resolved_url :
  (forall p v, In p placeholders -> env_map !! KStr p = Some v -> exists s, v = PStr s) ->
  returns (for_each (substitute env_map) placeholders resolved_url).
Proof.
  revert resolved_url.
  induction placeholders as [|p rest IH]; intros resolved_url Hstr; simpl.
  - apply returns_Ok.
  - destruct (substitute env_map resolved_url p) as [s'|e] eqn:Hs; simpl.
    + apply IH. intros q w Hq. apply Hstr. by right.
    + unfold substitute in Hs. destruct (env_map !! KStr p) as [v|] eqn:Hp; [|done].
      destruct (Hstr p v) as [s ->]; [by left|done|done].
Qed.

Lemma for_each_substitute_raises placeholders resolved_url p v :
  In p placeholders -> env_map !! KStr p = Some v -> (forall s, v <> PStr s) ->
  for_each (substitute env_map) placeholders resolved_url = Raise TypeError.
Proof.
  intros Hin Hp Hv. revert resolved_url.
  induction placeholders as [|q rest IH]; intros resolved_url; [done|]. simpl.
  destruct (substitute env_map resolved_url q) as [s'|e] eqn:Hs; simpl.
  - destruct Hin as [->|Hin]; [|by apply IH].
    unfold substitute in Hs. rewrite Hp in Hs. destruct v; try done.
    by destruct (Hv s).
  - by apply substitute_raises in Hs as ->.
Qed.

Lemma resolve_url_string_valued raw_url :
  string_valued env_map -> returns (resolve_url env_map raw_url).
Proof.
  intros Hstr. apply for_each_substitute_returns. intros p v _. apply Hstr.
Qed.

Lemma own_requests_length collection_item :
  string_valued env_map ->
  length (own_requests env_map collection_item) =
  if well_formed_request collection_item then 1%nat else 0%nat.
Proof.
  intros Hstr. rewrite own_requests_raw. unfold well_formed_request.
  destruct (raw_url_of collection_item) as [raw|].
  - rewrite bool_decide_true by eauto.
    by destruct (resolve_url_string_valued raw Hstr) as [u ->].
  - rewrite bool_decide_false; [done|]. by intros [? ?].
Qed.

Lemma flat_map_own_requests_length nodes :
  string_valued env_map ->
  length (flat_map (own_requests env_map) nodes) =
  length (filter (fun node => well_formed_request node = true) nodes).
Proof.
  intros Hstr. induction nodes as [|node rest IH]; [done|].
  simpl flat_map. rewrite length_app, own_requests_length, IH by done.
  rewrite filter_cons. destruct (well_formed_request node) eqn:Hwf.
  - by rewrite decide_True.
  - by rewrite decide_False.
Qed.
End own_request.

(** ** The walk: totality, order, length *)

Lemma string_valued_empty : string_valued ∅.
Proof. intros k v Hk. by rewrite lookup_empty in Hk. Qed.

Lemma string_valued_insert env_map k s :
  string_valued env_map -> string_valued (<[k := PStr s]> env_map).
Proof.
  intros Hstr k' v. rewrite lookup_insert. case_decide.
  - intros [= <-]. by exists s.
  - apply Hstr.
Qed.

Lemma bind_app_nil (r : result (list resolved_request)) :
  (nested ← r; Ok (nested ++ [])) = r.
Proof. destruct r; simpl; [by rewrite app_nil_r|done]. Qed.

(** C2 (as amended).  The walk returns exactly on the walkable values: those
    in which every node it comes to is a dictionary, a list, or a string
    without ['item'] in it, whatever the dictionaries hold.  On every other
    value it raises [TypeError].  A dictionary whose request descriptor is
    malformed adds nothing of its own: the walk gives what the nodes under
    its ['item'] give. *)
Theorem walk_returns_iff_walkable (env_map : pydict) (collection_item : pyval) :
  (returns (find_and_process_items env_map collection_item) <->
   walkable collection_item = true)
  /\ (walkable collection_item = false ->
      find_and_process_items env_map collection_item = Raise TypeError)
  /\ (forall entries,
        collection_item = PDict entries ->
        raw_url_of collection_item = None ->
        find_and_process_items env_map collection_item =
        match dict_lookup "item" entries with
        | Some (PList items) => find_and_process_items env_map (PList items)
        | _ => Ok []
        end).
Proof.
  split; [|split].
  - split.
    + intros Hret. destruct (walkable collection_item) eqn:Hw; [done|].
      rewrite (walk_not_walkable _ _ Hw) in Hret. by apply not_returns_Raise in Hret.
    + intros Hw. rewrite (walk_walkable _ _ Hw). apply returns_Ok.
  - apply walk_not_walkable.
  - intros entries -> Hraw.
    rewrite walk_dict, own_requests_raw, Hraw. apply bind_app_nil.
Qed.

Lemma walk_returns_iff_walkable_witness :
  returns (find_and_process_items sample_env sample_collection)
  /\ find_and_process_items sample_env
       (PDict [("request", PDict [("method", PStr "PUT"); ("url", PDict [])])]) = Ok [].
Proof.
  split.
  - apply (walk_returns_iff_walkable sample_env sample_collection). reflexivity.
  - apply (walk_returns_iff_walkable sample_env
             (PDict [("request", PDict [("method", PStr "PUT"); ("url", PDict [])])])
             ) with (entries := [("request", PDict [("method", PStr "PUT"); ("url", PDict [])])]);
      reflexivity.
Defined.

(** C2, as stated, fails: a [null] among the items is not skipped, the
    walk raises [TypeError] and the request next to it is lost. *)
Lemma walk_raises_on_null :
  find_and_process_items sample_env (PList [PNone; request_node "GET" "{{host}}/a"])
  = Raise TypeError.
Proof. vm_compute. reflexivity. Qed.

(** C5.  On every collection the walk returns the requests of the nodes
    in depth-first, left-to-right order, one after the other as they are
    met (nothing merged, nothing reordered); and for a node that has both
    nested items and a request of its own, what the nested items give
    comes first and the node's own pair last. *)
Theorem walk_depth_first (env_map : pydict) (collection_item : pyval) :
  walkable collection_item = true ->
  find_and_process_items env_map collection_item =
    Ok (flat_map (own_requests env_map) (visit collection_item))
  /\ (forall entries items raw resolved_url,
        collection_item = PDict entries ->
        dict_lookup "item" entries = Some (PList items) ->
        raw_url_of collection_item = Some raw ->
        resolve_url env_map raw = Ok resolved_url ->
        exists nested,
          find_and_process_items env_map (PList items) = Ok nested /\
          find_and_process_items env_map collection_item =
            Ok (nested ++ [(method_of collection_item, resolved_url)])).
Proof.
  intros Hw. split; [by apply walk_walkable|].
  intros entries items raw resolved_url -> Hitem Hraw Hres.
  rewrite walkable_dict, Hitem in Hw.
  exists (flat_map (own_requests env_map) (visit (PList items))).
  rewrite walk_dict, Hitem, (walk_walkable _ (PList items)) by done.
  split; [done|]. simpl. by rewrite own_requests_raw, Hraw, Hres.
Qed.

Lemma walk_depth_first_witness :
  find_and_process_items sample_env sample_collection =
  Ok [(PStr "GET", "https://api.example.com/users/42");
      (PStr "POST", "api.example.com/v1");
      (PStr "N/A", "api.example.com/folder");
      (PStr "DELETE", "{{base}}/x")].
Proof.
  destruct (walk_depth_first sample_env sample_collection) as [Hwalk _]; [reflexivity|].
  rewrite Hwalk. vm_compute. reflexivity.
Defined.

(** C6.  On every collection, with a variable map whose values are
    strings, the walk returns as many requests as the collection has nodes
    with a well-formed request descriptor, at whatever depth they are. *)
Theorem walk_length (env_map : pydict) (collection_item : pyval) :
  walkable collection_item = true ->
  string_valued env_map ->
  exists resolved_requests,
    find_and_process_items env_map collection_item = Ok resolved_requests /\
    length resolved_requests = count_requests collection_item.
Proof.
  intros Hw Hstr. eexists. split; [by apply walk_walkable|].
  by apply flat_map_own_requests_length.
Qed.

Lemma walk_length_witness :
  exists resolved_requests,
    find_and_process_items sample_env sample_collection = Ok resolved_requests /\
    length resolved_requests = 4%nat.
Proof.
  apply (walk_length sample_env sample_collection); [reflexivity|].
  apply string_valued_insert, string_valued_insert, string_valued_empty.
Defined.

(** C10.  A node whose request descriptor is well formed, but whose raw URL
    has a placeholder bound to something that is not a string: the
    extraction raises [TypeError], the [try] statement swallows it, and the
    node adds no request of its own. *)
Theorem request_skipped_on_non_string_value
    (env_map : pydict) (entries : list (string * pyval))
    (raw placeholder : string) (value : pyval) :
  raw_url_of (PDict entries) = Some raw ->
  In placeholder (findall raw) ->
  env_map !! KStr placeholder = Some value ->
  (forall s, value <> PStr s) ->
  extract_request env_map (PDict entries) = Raise TypeError
  /\ own_requests env_map (PDict entries) = []
  /\ find_and_process_items env_map (PDict entries) =
     match dict_lookup "item" entries with
     | Some (PList items) => find_and_process_items env_map (PList items)
     | _ => Ok []
     end.
Proof.
  intros Hraw Hin Hp Hv.
  assert (resolve_url env_map raw = Raise TypeError) as Hres
    by (by eapply for_each_substitute_raises).
  assert (extract_request env_map (PDict entries) = Raise TypeError) as Hex
    by (by rewrite extract_request_raw, Hraw, Hres).
  split; [done|]. split.
  - unfold own_requests. by rewrite Hex.
  - rewrite walk_dict. unfold own_requests. rewrite Hex. apply bind_app_nil.
Qed.

Lemma request_skipped_on_non_string_value_witness :
  find_and_process_items (<[KStr "id" := PInt 42]> sample_env)
    (request_node "GET" "{{host}}/users/{{id}}") = Ok [].
Proof.
  apply (request_skipped_on_non_string_value (<[KStr "id" := PInt 42]> sample_env)
           [("request", PDict [("method", PStr "GET");
                               ("url", PDict [("raw", PStr "{{host}}/users/{{id}}")])])]
           "{{host}}/users/{{id}}" "id" (PInt 42)).
  - reflexivity.
  - vm_compute. auto.
  - reflexivity.
  - discriminate.
Defined.

(** ** The environment map *)

Lemma hash_key_returns key : returns (hash_key key) <-> hashable key = true.
Proof.
  destruct key as [|[]|[]|[]| | |]; simpl; split; try done; try (intros _; apply returns_Ok).
  all: by intros Hr; apply not_returns_Raise in Hr.
Qed.

Lemma add_entry_non_dict variable_map item :
  (forall entries, item <> PDict entries) ->
  add_entry variable_map item = Raise AttributeError.
Proof. intros Hd. destruct item; try done. by destruct (Hd entries). Qed.

(** One turn of the loop on a dictionary. *)
Lemma add_entry_dict variable_map entries :
  add_entry variable_map (PDict entries) =
  match dict_lookup "enabled" entries,
        dict_lookup "key" entries, dict_lookup "value" entries with
  | Some enabled, Some key, Some value =>
      if truthy enabled
      then k ← hash_key key; Ok (<[k := value]> variable_map)
      else Ok variable_map
  | Some enabled, _, _ => Ok variable_map
  | None, _, _ => Ok variable_map
  end.
Proof.
  unfold add_entry, py_get, py_in, subscript.
  destruct (dict_lookup "enabled" entries) as [enabled|]; simpl.
  - destruct (truthy enabled);
      destruct (dict_lookup "key" entries) as [key|]; simpl; try done;
      destruct (dict_lookup "value" entries) as [value|]; simpl; done.
  - by destruct (dict_lookup "key" entries), (dict_lookup "value" entries).
Qed.

Lemma add_entry_returns variable_map item :
  returns (add_entry variable_map item) <-> entry_ok item = true.
Proof.
  destruct item as [| | | | | |entries];
    try (split; [intros Hr; by apply not_returns_Raise in Hr|done]).
  rewrite add_entry_dict. unfold entry_ok.
  destruct (dict_lookup "enabled" entries) as [enabled|]; [|split; [done|intros; apply returns_Ok]].
  destruct (dict_lookup "key" entries) as [key|]; [|split; [done|intros; apply returns_Ok]].
  destruct (dict_lookup "value" entries) as [value|]; [|split; [done|intros; apply returns_Ok]].
  destruct (truthy enabled); simpl; [|split; [done|intros; apply returns_Ok]].
  rewrite <- hash_key_returns. split.
  - intros [m Hm]. destruct (hash_key key); [apply returns_Ok|done].
  - intros [k ->]. apply returns_Ok.
Qed.

Lemma add_entry_binds variable_map item variable_map' :
  add_entry variable_map item = Ok variable_map' ->
  (exists k v, binds item k v /\ variable_map' = <[k := v]> variable_map)
  \/ ((forall k v, ~ binds item k v) /\ variable_map' = variable_map).
Proof.
  destruct item as [| | | | | |entries]; try done.
  rewrite add_entry_dict.
  destruct (dict_lookup "enabled" entries) as [enabled|] eqn:Hen.
  2: { intros [= <-]. right. split; [|done].
       intros k v (es & en & key & [= <-] & Hen' & _). congruence. }
  destruct (truthy enabled) eqn:Htr.
  2: { intros Hm. right. split.
       - intros k v (es & en & key & [= <-] & Hen' & Htr' & _). congruence.
       - by destruct (dict_lookup "key" entries), (dict_lookup "value" entries);
           injection Hm. }
  destruct (dict_lookup "key" entries) as [key|] eqn:Hkey.
  2: { intros [= <-]. right. split; [|done].
       intros k v (es & en & key & [= <-] & _ & _ & Hkey' & _). congruence. }
  destruct (dict_lookup "value" entries) as [value|] eqn:Hval.
  2: { intros [= <-]. right. split; [|done].
       intros k v (es & en & key' & [= <-] & _ & _ & _ & Hval' & _). congruence. }
  destruct (hash_key key) as [k|e] eqn:Hk; [|done]. simpl. intros [= <-].
  left. exists k, value. split; [|done].
  by exists entries, enabled, key.
Qed.

Lemma binds_key_unique item k v k' v' :
  binds item k v -> binds item k' v' -> k = k' /\ v = v'.
Proof.
  intros (es & en & key & -> & _ & _ & Hkey & Hval & Hk)
         (es' & en' & key' & [= <-] & _ & _ & Hkey' & Hval' & Hk').
  split; congruence.
Qed.

Section environment_loop.
Local Abbreviation load := (for_each add_entry).

Lemma load_returns items variable_map :
  returns (load items variable_map) <-> forallb entry_ok items = true.
Proof.
  revert variable_map. induction items as [|item rest IH]; intros variable_map; simpl.
  - split; [done|intros; apply returns_Ok].
  - rewrite andb_true_iff, <- (add_entry_returns variable_map item), bind_returns.
    split.
    + intros (m & Hm & Hrest). rewrite Hm. split; [apply returns_Ok|by eapply IH].
    + intros [[m Hm] Hrest]. exists m. split; [done|by apply IH].
Qed.

(** Entries that do not bind [k] leave it as it was. *)
Lemma load_other_keys items variable_map variable_map' k :
  load items variable_map = Ok variable_map' ->
  (forall item v, In item items -> ~ binds item k v) ->
  variable_map' !! k = variable_map !! k.
Proof.
  revert variable_map. induction items as [|item rest IH]; intros variable_map; simpl.
  - by intros [= <-].
  - destruct (add_entry variable_map item) as [m|e] eqn:Hm; simpl; [|done].
    intros Hrest Hnot. rewrite (IH m Hrest) by (intros; apply Hnot; by right).
    destruct (add_entry_binds _ _ _ Hm) as [(k' & v & Hb & ->)|[_ ->]]; [|done].
    apply lookup_insert_ne. intros ->. by apply (Hnot item v); [left|].
Qed.

Lemma load_last_wins before item after variable_map variable_map' k v :
  load (before ++ item :: after) variable_map = Ok variable_map' ->
  binds item k v ->
  (forall item' v', In item' after -> ~ binds item' k v') ->
  variable_map' !! k = Some v.
Proof.
  rewrite for_each_app. intros Hload Hb Hafter.
  destruct (load before variable_map) as [m1|e]; simpl in Hload; [|done].
  destruct (add_entry m1 item) as [m2|e] eqn:Hm2; simpl in Hload; [|done].
  rewrite (load_other_keys _ _ _ _ Hload Hafter).
  destruct (add_entry_binds _ _ _ Hm2) as [(k' & v' & Hb' & ->)|[Hnot _]].
  - destruct (binds_key_unique _ _ _ _ _ Hb Hb') as [<- <-]. apply lookup_insert_eq.
  - by destruct (Hnot k v).
Qed.

Lemma load_domain items variable_map variable_map' k :
  load items variable_map = Ok variable_map' ->
  is_Some (variable_map' !! k) <->
  is_Some (variable_map !! k) \/ exists item v, In item items /\ binds item k v.
Proof.
  revert variable_map. induction items as [|item rest IH]; intros variable_map; simpl.
  - intros [= <-]. split; [by left|]. by intros [?|(? & ? & [] & _)].
  - destruct (add_entry variable_map item) as [m|e] eqn:Hm; simpl; [|done].
    intros Hrest. rewrite (IH m Hrest).
    destruct (add_entry_binds _ _ _ Hm) as [(k' & v & Hb & ->)|[Hnot ->]].
    + rewrite lookup_insert. case_decide as Hk.
      * subst k'. split; [|intros _; left; eauto].
        intros _. right. exists item, v. split; [by left|done].
      * split.
        -- intros [?|(it & w & Hin & Hw)]; [by left|]. right. exists it, w. split; [by right|done].
        -- intros [?|(it & w & [<-|Hin] & Hw)]; [by left| |].
           ++ destruct (binds_key_unique _ _ _ _ _ Hb Hw) as [-> _]. done.
           ++ right. by exists it, w.
    + split.
      * intros [?|(it & w & Hin & Hw)]; [by left|]. right. exists it, w. split; [by right|done].
      * intros [?|(it & w & [<-|Hin] & Hw)]; [by left| |].
        -- by destruct (Hnot k w).
        -- right. by exists it, w.
Qed.

(** An entry that binds nothing can be taken out. *)
Lemma load_skip before item after variable_map :
  entry_ok item = true ->
  (forall k v, ~ binds item k v) ->
  load (before ++ item :: after) variable_map = load (before ++ after) variable_map.
Proof.
  intros Hok Hnot. rewrite !for_each_app. apply bind_ext. intros m. simpl.
  destruct (proj2 (add_entry_returns m item) Hok) as [m' Hm']. rewrite Hm'. simpl.
  destruct (add_entry_binds _ _ _ Hm') as [(k & v & Hb & _)|[_ ->]]; [|done].
  by destruct (Hnot k v).
Qed.
End environment_loop.

Lemma get_environment_map_values entries items :
  dict_lookup "values" entries = Some (PList items) ->
  get_environment_map (PDict entries) = for_each add_entry items ∅.
Proof.
  intros Hv. unfold get_environment_map, py_in, subscript. rewrite Hv.
  rewrite bool_decide_true by eauto. done.
Qed.

Lemma get_environment_map_no_values entries :
  (forall items, dict_lookup "values" entries <> Some (PList items)) ->
  get_environment_map (PDict entries) = Ok ∅.
Proof.
  intros Hv. unfold get_environment_map, py_in, subscript.
  destruct (dict_lookup "values" entries) as [values|].
  - rewrite bool_decide_true by eauto. simpl. destruct values; try done. by destruct (Hv items).
  - rewrite bool_decide_false; [done|]. by intros [? ?].
Qed.

(** C3 (as amended).  [get_environment_map] returns exactly on the loadable
    documents: a dictionary whose ['values'] is absent, is not a list, or
    is a list of dictionaries in which every enabled entry with a key and a
    value has a hashable key (and a list or string that does not hold
    ['values']).  On a dictionary whose ['values'] is absent or not a list
    it returns the empty map. *)
Theorem get_environment_map_returns_iff_loadable (env_data : pyval) :
  (returns (get_environment_map env_data) <-> loadable env_data = true)
  /\ (forall entries,
        env_data = PDict entries ->
        (forall items, dict_lookup "values" entries <> Some (PList items)) ->
        get_environment_map env_data = Ok ∅).
Proof.
  split; [|by intros entries ->; apply get_environment_map_no_values].
  destruct env_data as [| | | |s|items|entries]; simpl;
    try (split; [intros Hr; by apply not_returns_Raise in Hr|done]).
  - unfold get_environment_map. simpl.
    destruct (str_contains "values" s); simpl;
      (split; [try done; intros Hr; by apply not_returns_Raise in Hr
              |try done; intros; apply returns_Ok]).
  - unfold get_environment_map. simpl.
    destruct (existsb _ items); simpl;
      (split; [try done; intros Hr; by apply not_returns_Raise in Hr
              |try done; intros; apply returns_Ok]).
  - destruct (dict_lookup "values" entries) as [values|] eqn:Hv.
    + destruct values as [| | | | |items|];
        try (rewrite get_environment_map_no_values by (by rewrite Hv);
             split; [done|intros; apply returns_Ok]).
      rewrite (get_environment_map_values _ _ Hv). apply load_returns.
    + rewrite get_environment_map_no_values by (by rewrite Hv).
      split; [done|intros; apply returns_Ok].
Qed.

Lemma get_environment_map_returns_iff_loadable_witness :
  get_environment_map (PDict [("name", PStr "dev"); ("values", PStr "none")]) = Ok ∅.
Proof.
  apply (get_environment_map_returns_iff_loadable
           (PDict [("name", PStr "dev"); ("values", PStr "none")]))
    with (entries := [("name", PStr "dev"); ("values", PStr "none")]).
  - reflexivity.
  - intros items. simpl. discriminate.
Defined.

(** C3, as stated, fails: an entry of the wrong type is not skipped,
    [item.get] raises [AttributeError]. *)
Lemma get_environment_map_raises_on_number :
  get_environment_map (env_document [env_entry true "host" "api.example.com"; PInt 5])
  = Raise AttributeError.
Proof. vm_compute. reflexivity. Qed.

(** C7 (as amended).  In the map returned for a document with a
    ['values'] list, a key is present if and only if some entry binds it:
    an entry whose enabled flag is truthy and that has both a key and a
    value.  An entry with [enabled] false binds nothing, whatever else it
    holds: the map is the one the document gives without that entry, and
    the entry's key is absent from the map exactly when no other entry
    binds it.  (The function returns on every such document whose entries
    are dictionaries with hashable keys.) *)
Theorem enabled_entries_only (entries : list (string * pyval)) (items : list pyval) :
  dict_lookup "values" entries = Some (PList items) ->
  (forallb entry_ok items = true -> returns (get_environment_map (PDict entries)))
  /\ (forall variable_map,
        get_environment_map (PDict entries) = Ok variable_map ->
        (forall k, is_Some (variable_map !! k) <->
                   exists item v, In item items /\ binds item k v)
        /\ (forall before disabled after,
              items = before ++ PDict disabled :: after ->
              dict_lookup "enabled" disabled = Some (PBool false) ->
              get_environment_map (PDict [("values", PList (before ++ after))])
              = Ok variable_map
              /\ (forall key k,
                    dict_lookup "key" disabled = Some key ->
                    hash_key key = Ok k ->
                    variable_map !! k = None <->
                    forall item v, In item (before ++ after) -> ~ binds item k v))).
Proof.
  intros Hv. rewrite (get_environment_map_values _ _ Hv). split; [apply load_returns|].
  intros variable_map Hload. split.
  - intros k. rewrite (load_domain _ _ _ k Hload), lookup_empty. split.
    + by intros [[? ?]|?].
    + by right.
  - intros before disabled after -> Hen.
    assert (forall k v, ~ binds (PDict disabled) k v) as Hnot.
    { intros k v (es & en & key & [= <-] & Hen' & Htr & _).
      rewrite Hen in Hen'. by injection Hen' as <-. }
    split.
    + rewrite (get_environment_map_values _ (before ++ after)) by done.
      rewrite <- Hload. symmetry. apply load_skip; [|done].
      unfold entry_ok. rewrite Hen. simpl.
      by destruct (dict_lookup "key" disabled), (dict_lookup "value" disabled).
    + intros key k _ _.
      rewrite eq_None_not_Some, (load_domain _ _ _ k Hload), lookup_empty. split.
      * intros Hnone item v Hin Hb. apply Hnone. right. exists item, v.
        split; [|done]. apply in_app_iff in Hin as [Hin|Hin]; apply in_app_iff;
          [by left|by right; right].
      * intros Hnone [[? ?]|(item & v & Hin & Hb)]; [done|].
        apply in_app_iff in Hin as [Hin|[<-|Hin]].
        -- eapply Hnone; [|done]. apply in_app_iff. by left.
        -- by eapply Hnot.
        -- eapply Hnone; [|done]. apply in_app_iff. by right.
Qed.

Lemma enabled_entries_only_witness :
  get_environment_map
    (env_document [env_entry true "host" "api.example.com"; env_entry false "id" "42"])
  = get_environment_map (PDict [("values", PList [env_entry true "host" "api.example.com"])]).
Proof.
  destruct (enabled_entries_only
              [("name", PStr "dev");
               ("values", PList [env_entry true "host" "api.example.com";
                                 env_entry false "id" "42"])]
              [env_entry true "host" "api.example.com"; env_entry false "id" "42"])
    as [Hret Hmap]; [reflexivity|].
  destruct Hret as [variable_map Hm]; [reflexivity|].
  destruct (Hmap variable_map Hm) as [_ Hskip].
  destruct (Hskip [env_entry true "host" "api.example.com"]
              [("key", PStr "id"); ("value", PStr "42"); ("enabled", PBool false)] []
              eq_refl eq_refl) as [Hsame _].
  transitivity (Ok variable_map); [exact Hm|]. symmetry. exact Hsame.
Defined.

(** C7, as stated, fails: the key of an entry with [enabled] false is in
    the map when an enabled entry binds the same key. *)
Lemma disabled_entry_key_present :
  exists variable_map,
    get_environment_map (env_document [env_entry true "id" "2"; env_entry false "id" "3"])
    = Ok variable_map
    /\ variable_map !! KStr "id" = Some (PStr "2").
Proof.
  exists (<[KStr "id" := PStr "2"]> ∅). split; [vm_compute; reflexivity|].
  apply lookup_insert_eq.
Qed.

(** C8.  When several entries bind the same key, the map returned holds
    the value of the last of them in the order of the list. *)
Theorem last_entry_wins (entries : list (string * pyval)) (items : list pyval) :
  dict_lookup "values" entries = Some (PList items) ->
  (forallb entry_ok items = true -> returns (get_environment_map (PDict entries)))
  /\ (forall variable_map before item after k v,
        get_environment_map (PDict entries) = Ok variable_map ->
        items = before ++ item :: after ->
        binds item k v ->
        (forall item' v', In item' after -> ~ binds item' k v') ->
        variable_map !! k = Some v).
Proof.
  intros Hv. rewrite (get_environment_map_values _ _ Hv). split; [apply load_returns|].
  intros variable_map before item after k v Hload ->.
  by apply (load_last_wins before item after ∅).
Qed.

Lemma last_entry_wins_witness :
  exists variable_map,
    get_environment_map
      (env_document [env_entry true "id" "1"; env_entry true "id" "2";
                     env_entry false "id" "3"; env_entry true "host" "h"])
    = Ok variable_map
    /\ variable_map !! KStr "id" = Some (PStr "2").
Proof.
  destruct (last_entry_wins
              [("name", PStr "dev");
               ("values", PList [env_entry true "id" "1"; env_entry true "id" "2";
                                 env_entry false "id" "3"; env_entry true "host" "h"])]
              [env_entry true "id" "1"; env_entry true "id" "2";
               env_entry false "id" "3"; env_entry true "host" "h"])
    as [Hret Hlast]; [reflexivity|].
  destruct Hret as [variable_map Hm]; [reflexivity|].
  exists variable_map. split; [exact Hm|].
  apply (Hlast variable_map [env_entry true "id" "1"] (env_entry true "id" "2")
           [env_entry false "id" "3"; env_entry true "host" "h"]); [exact Hm|reflexivity| |].
  - exists [("key", PStr "id"); ("value", PStr "2"); ("enabled", PBool true)],
      (PBool true), (PStr "id"). repeat split.
  - intros item' v' [<-|[<-|[]]] (es & en & key & [= <-] & Hen & Htr & Hkey & _ & Hk);
      simpl in *; by simplify_eq.
Defined.

(** ** Strings *)

#[local] Arguments String.append !_ _ / : simpl nomatch.

Lemma append_assoc (a b c : string) : (a +:+ b) +:+ c = a +:+ (b +:+ c).
Proof. induction a as [|x a IH]; simpl; [done|by f_equal]. Qed.

Lemma append_nil_r (a : string) : a +:+ "" = a.
Proof. induction a as [|x a IH]; simpl; [done|by f_equal]. Qed.

Lemma length_append (a b : string) :
  String.length (a +:+ b) = (String.length a + String.length b)%nat.
Proof. induction a as [|x a IH]; simpl; [done|by f_equal]. Qed.

Lemma str_drop_append (a b : string) : str_drop (String.length a) (a +:+ b) = b.
Proof. induction a as [|x a IH]; simpl; [by destruct b|done]. Qed.

Lemma str_drop_nil n : str_drop n "" = "".
Proof. by destruct n. Qed.

Lemma prefix_append (a b : string) : String.prefix a (a +:+ b) = true.
Proof.
  induction a as [|x a IH]; simpl; [by destruct b|].
  by destruct (ascii_dec x x).
Qed.

Lemma prefix_cons_ne (x y : ascii) (a b : string) :
  x <> y -> String.prefix (String x a) (String y b) = false.
Proof. intros Hxy. simpl. by destruct (ascii_dec x y). Qed.

Lemma prefix_cons_eq (x : ascii) (a b : string) :
  String.prefix (String x a) (String x b) = String.prefix a b.
Proof. simpl. by destruct (ascii_dec x x). Qed.

#[local] Arguments String.prefix : simpl never.

Lemma token_eq name : token name = String "{" (String "{" (name +:+ "}}")).
Proof. reflexivity. Qed.

Lemma token_append name rest :
  token name +:+ rest = String "{" (String "{" (name +:+ String "}" (String "}" rest))).
Proof. rewrite token_eq. simpl. by rewrite append_assoc. Qed.

Lemma length_token name : String.length (token name) = (String.length name + 4)%nat.
Proof. rewrite token_eq. simpl. rewrite length_append. simpl. lia. Qed.

Lemma is_brace_false c : is_brace c = false -> c <> "{"%char /\ c <> "}"%char.
Proof.
  unfold is_brace. rewrite orb_false_iff, !Ascii.eqb_neq. tauto.
Qed.

Lemma brace_free_no_open s : brace_free s = true -> no_open s = true.
Proof.
  induction s as [|c s IH]; simpl; [done|].
  rewrite !andb_true_iff, !negb_true_iff. intros [Hc Hs].
  split; [|by apply IH]. apply is_brace_false in Hc as [Hc _]. by apply Ascii.eqb_neq.
Qed.

(** ** The pattern *)

Lemma take_name_spec s :
  s = (take_name s).1 +:+ (take_name s).2
  /\ brace_free (take_name s).1 = true
  /\ ((take_name s).2 = "" \/
      exists c r, (take_name s).2 = String c r /\ is_brace c = true).
Proof.
  induction s as [|c s (IHeq & IHfree & IHrest)]; simpl; [by auto|].
  destruct (is_brace c) eqn:Hc; simpl.
  - split; [done|]. split; [done|]. right. by exists c, s.
  - destruct (take_name s) as [name rest]. simpl in *.
    split; [by rewrite <- IHeq|]. by rewrite Hc.
Qed.

Lemma take_name_append name c rest :
  brace_free name = true -> is_brace c = true ->
  take_name (name +:+ String c rest) = (name, String c rest).
Proof.
  intros Hfree Hc. induction name as [|x name IH]; simpl in *.
  - by rewrite Hc.
  - apply andb_true_iff in Hfree as [Hx Hfree]. apply negb_true_iff in Hx.
    by rewrite Hx, IH.
Qed.

Lemma match_placeholder_token name rest :
  brace_free name = true -> name <> "" ->
  match_placeholder (token name +:+ rest) = Some (name, rest).
Proof.
  intros Hfree Hne. rewrite token_append. unfold match_placeholder.
  rewrite take_name_append by done. by destruct name.
Qed.

Lemma match_placeholder_not_open c s :
  c <> "{"%char -> match_placeholder (String c s) = None.
Proof.
  intros Hc. unfold match_placeholder.
  destruct (Ascii.eqb_spec c "{") as [->|_]; [done|].
  by destruct c as [[] [] [] [] [] [] [] []].
Qed.

Lemma match_placeholder_Some s name rest :
  match_placeholder s = Some (name, rest) ->
  s = token name +:+ rest /\ brace_free name = true /\ name <> "".
Proof.
  destruct s as [|c1 s]; [done|].
  destruct (Ascii.eqb_spec c1 "{") as [->|Hc1];
    [|by rewrite match_placeholder_not_open].
  destruct s as [|c2 s]; [done|].
  destruct (Ascii.eqb_spec c2 "{") as [->|Hc2];
    [|by unfold match_placeholder; destruct c2 as [[] [] [] [] [] [] [] []]].
  unfold match_placeholder.
  pose proof (take_name_spec s) as (Heq & Hfree & _).
  destruct (take_name s) as [nm rst]. simpl in Heq, Hfree.
  destruct nm as [|c nm]; [done|].
  destruct rst as [|r1 rst]; [done|].
  destruct (Ascii.eqb_spec r1 "}") as [->|Hr1];
    [|by destruct r1 as [[] [] [] [] [] [] [] []]].
  destruct rst as [|r2 rst]; [done|].
  destruct (Ascii.eqb_spec r2 "}") as [->|Hr2];
    [|by destruct r2 as [[] [] [] [] [] [] [] []]].
  intros [= <- <-]. rewrite token_append. split; [by rewrite Heq|done].
Qed.

(** ** Pieces *)

Lemma render_cons p ps : render (p :: ps) = render_piece p +:+ render ps.
Proof. reflexivity. Qed.

Lemma render_app ps qs : render (ps ++ qs) = render ps +:+ render qs.
Proof.
  induction ps as [|p ps IH]; [done|].
  rewrite <- app_comm_cons, !render_cons, IH. by rewrite append_assoc.
Qed.

Lemma render_lits s : render (lits s) = s.
Proof. induction s as [|c s IH]; [done|]. simpl lits. rewrite render_cons, IH. done. Qed.

Lemma names_of_pieces_from skip s : names_of (pieces_from skip s) = findall_from skip s.
Proof.
  revert skip. induction s as [|c s IH]; intros skip; [done|].
  destruct skip as [|k]; [|apply IH].
  cbn [pieces_from findall_from].
  destruct (match_placeholder (String c s)) as [[name rest]|].
  - unfold names_of in *. simpl. by rewrite IH.
  - unfold names_of in *. simpl. by rewrite IH.
Qed.

Lemma names_of_pieces s : names_of (pieces s) = findall s.
Proof. apply names_of_pieces_from. Qed.

Lemma render_pieces_from skip s : render (pieces_from skip s) = str_drop skip s.
Proof.
  revert skip. induction s as [|c s IH]; intros skip; [by destruct skip|].
  destruct skip as [|k]; [|apply IH].
  cbn [pieces_from].
  destruct (match_placeholder (String c s)) as [[name rest]|] eqn:Hm.
  - apply match_placeholder_Some in Hm as (Hs & _ & _).
    rewrite render_cons, IH. simpl render_piece.
    rewrite token_append in Hs. injection Hs as -> ->.
    rewrite token_append. simpl. do 2 f_equal.
    replace (String.length name + 3)%nat with (String.length ("{" +:+ name +:+ "}}")).
    + rewrite <- (str_drop_append ("{" +:+ name +:+ "}}") rest) at 2.
      simpl. by rewrite !append_assoc.
    + simpl. rewrite length_append. simpl. lia.
  - rewrite render_cons, IH. done.
Qed.

(** Putting the pieces of a URL together gives the URL back. *)
Lemma render_pieces s : render (pieces s) = s.
Proof. apply render_pieces_from. Qed.

Lemma well_formed_pieces_from skip s :
  forallb well_formed_piece (pieces_from skip s) = true.
Proof.
  revert skip. induction s as [|c s IH]; intros skip; [done|].
  destruct skip as [|k]; [|apply IH].
  cbn [pieces_from].
  destruct (match_placeholder (String c s)) as [[name rest]|] eqn:Hm; simpl.
  - apply match_placeholder_Some in Hm as (_ & Hfree & Hne).
    rewrite Hfree, IH. simpl. apply String.eqb_neq in Hne. by rewrite Hne.
  - apply IH.
Qed.

Lemma clean_pieces raw_url :
  no_stray_open raw_url = true -> forallb clean_piece (pieces raw_url) = true.
Proof.
  unfold no_stray_open. pose proof (well_formed_pieces_from 0 raw_url) as Hwf.
  fold (pieces raw_url) in Hwf. revert Hwf.
  induction (pieces raw_url) as [|p ps IH]; [done|]. simpl.
  rewrite !andb_true_iff. intros [Hp Hps] [Hq Hqs]. split; [|by apply IH].
  by destruct p.
Qed.

(** ** [str.replace] on pieces *)

Lemma replace_from_drop old new skip s :
  replace_from old new skip s = replace_from old new 0 (str_drop skip s).
Proof.
  revert skip. induction s as [|c s IH]; intros skip; [by destruct skip|].
  destruct skip as [|k]; [done|]. apply IH.
Qed.

Lemma replace_from_match old new s :
  old <> "" -> String.prefix old s = true ->
  replace_from old new 0 s = new +:+ replace_from old new 0 (str_drop (String.length old) s).
Proof.
  intros Hold Hpre. destruct s as [|c s]; [by destruct old|].
  cbn [replace_from]. rewrite Hpre, replace_from_drop.
  destruct old as [|x old]; [done|]. simpl. by rewrite Nat.sub_0_r.
Qed.

Lemma replace_from_no_match old new c s :
  String.prefix old (String c s) = false ->
  replace_from old new 0 (String c s) = String c (replace_from old new 0 s).
Proof. intros Hpre. cbn [replace_from]. by rewrite Hpre. Qed.

(** A token is found only where the same token stands. *)
Lemma prefix_name_close placeholder name rest :
  brace_free placeholder = true -> brace_free name = true ->
  String.prefix (placeholder +:+ "}}") (name +:+ String "}" (String "}" rest)) = true ->
  placeholder = name.
Proof.
  revert name. induction placeholder as [|x placeholder IH]; intros name Hp Hn.
  - destruct name as [|y name]; [done|]. simpl in Hn.
    apply andb_true_iff in Hn as [Hy _]. apply negb_true_iff, is_brace_false in Hy as [_ Hy].
    change (String.prefix (String "}" "}")
              (String y (name +:+ String "}" (String "}" rest))) = true -> "" = String y name).
    rewrite prefix_cons_ne by congruence. done.
  - simpl in Hp. apply andb_true_iff in Hp as [Hx Hp].
    apply negb_true_iff, is_brace_false in Hx as [_ Hx].
    destruct name as [|y name].
    + change (String.prefix (String x (placeholder +:+ "}}"))
                (String "}" (String "}" rest)) = true -> String x placeholder = "").
      rewrite prefix_cons_ne by done. done.
    + simpl in Hn. apply andb_true_iff in Hn as [_ Hn].
      change (String.prefix (String x (placeholder +:+ "}}"))
                (String y (name +:+ String "}" (String "}" rest))) = true ->
              String x placeholder = String y name).
      destruct (ascii_dec x y) as [->|Hxy].
      * rewrite prefix_cons_eq. intros Hpre. f_equal. by apply IH.
      * by rewrite prefix_cons_ne.
Qed.

Lemma prefix_token placeholder name rest :
  brace_free placeholder = true -> brace_free name = true ->
  String.prefix (token placeholder) (token name +:+ rest) = true ->
  placeholder = name.
Proof.
  intros Hp Hn. rewrite token_append, token_eq, !prefix_cons_eq.
  by apply prefix_name_close.
Qed.

#[local] Arguments replace_from : simpl never.

(** Text without an opening brace is passed over. *)
Lemma replace_from_no_open placeholder value text rest :
  no_open text = true ->
  replace_from (token placeholder) value 0 (text +:+ rest) =
  text +:+ replace_from (token placeholder) value 0 rest.
Proof.
  induction text as [|c text IH]; intros Hno; [done|].
  simpl in Hno. apply andb_true_iff in Hno as [Hc Htext].
  apply negb_true_iff, Ascii.eqb_neq in Hc.
  change (String c text +:+ rest) with (String c (text +:+ rest)).
  rewrite replace_from_no_match by (by rewrite token_eq, prefix_cons_ne).
  by rewrite IH.
Qed.

Lemma replace_piece_render placeholder value p rest :
  brace_free placeholder = true ->
  clean_piece p = true ->
  replace_from (token placeholder) value 0 (render_piece p +:+ rest) =
  render (replace_piece placeholder value p)
  +:+ replace_from (token placeholder) value 0 rest.
Proof.
  intros Hp Hclean. destruct p as [c|name]; simpl in Hclean;
    cbn [render_piece replace_piece].
  - apply negb_true_iff, Ascii.eqb_neq in Hclean.
    change (String c "" +:+ rest) with (String c rest).
    by rewrite replace_from_no_match by (by rewrite token_eq, prefix_cons_ne).
  - apply andb_true_iff in Hclean as [Hfree Hne].
    apply negb_true_iff, String.eqb_neq in Hne.
    destruct (String.eqb_spec name placeholder) as [->|Hdiff].
    + rewrite replace_from_match; [|by rewrite token_eq|apply prefix_append].
      by rewrite str_drop_append, render_lits.
    + assert (String.prefix (token placeholder) (token name +:+ rest) = false) as Hno.
      { destruct (String.prefix _ _) eqn:Hpre; [|done].
        apply prefix_token in Hpre; [by subst|done..]. }
      rewrite token_append in *.
      rewrite replace_from_no_match by done.
      destruct name as [|y name]; [done|].
      simpl in Hfree. apply andb_true_iff in Hfree as [Hy Hfree].
      apply negb_true_iff, is_brace_false in Hy as [Hy _].
      change (String y name +:+ String "}" (String "}" rest))
        with (String y (name +:+ String "}" (String "}" rest))).
      rewrite replace_from_no_match
        by (by rewrite token_eq, prefix_cons_eq, prefix_cons_ne).
      rewrite replace_from_no_match by (by rewrite token_eq, prefix_cons_ne).
      replace (name +:+ String "}" (String "}" rest)) with ((name +:+ "}}") +:+ rest)
        by (by rewrite append_assoc).
      rewrite replace_from_no_open.
      * unfold render. cbn [map render_piece join fold_right].
        rewrite token_eq, append_nil_r. simpl. by rewrite append_assoc.
      * clear -Hfree. induction name as [|z name IH]; [done|]. simpl in *.
        apply andb_true_iff in Hfree as [Hz Hfree].
        apply negb_true_iff, is_brace_false in Hz as [Hz _].
        rewrite IH by done. apply Ascii.eqb_neq in Hz. by rewrite Hz.
Qed.

(** One [replace] pass on a text without stray braces changes the tokens
    of that name and nothing else. *)
Lemma replace_render placeholder value ps :
  brace_free placeholder = true ->
  forallb clean_piece ps = true ->
  str_replace (render ps) (token placeholder) value =
  render (flat_map (replace_piece placeholder value) ps).
Proof.
  intros Hp Hclean. unfold str_replace. rewrite token_eq at 1.
  induction ps as [|p ps IH]; [done|].
  simpl in Hclean. apply andb_true_iff in Hclean as [Hclean Hps].
  rewrite render_cons. simpl flat_map. rewrite render_app.
  rewrite replace_piece_render by done. by rewrite IH.
Qed.
(** ** The passes of the loop, on pieces *)

Lemma flat_map_flat_map {A B C : Type} (f : A -> list B) (g : B -> list C) (l : list A) :
  flat_map g (flat_map f l) = flat_map (fun x => flat_map g (f x)) l.
Proof.
  induction l as [|x l IH]; [done|]. simpl. by rewrite flat_map_app, IH.
Qed.

Lemma clean_lits value : no_open value = true -> forallb clean_piece (lits value) = true.
Proof.
  induction value as [|c value IH]; [done|]. simpl.
  rewrite !andb_true_iff. intros [Hc Hv]. split; [done|by apply IH].
Qed.

Lemma clean_replace_piece placeholder value ps :
  no_open value = true ->
  forallb clean_piece ps = true ->
  forallb clean_piece (flat_map (replace_piece placeholder value) ps) = true.
Proof.
  intros Hv. induction ps as [|p ps IH]; [done|]. simpl.
  rewrite andb_true_iff, forallb_app, andb_true_iff. intros [Hp Hps].
  split; [|by apply IH].
  destruct p as [c|name]; simpl in *; [by rewrite Hp|].
  destruct (String.eqb name placeholder); [by apply clean_lits|]. simpl. by rewrite Hp.
Qed.

Lemma expand_under_lits names env_map value :
  flat_map (expand_under names env_map) (lits value) = lits value.
Proof. induction value as [|c value IH]; [done|]. simpl. by rewrite IH. Qed.

Lemma expand_under_nil env_map ps : flat_map (expand_under [] env_map) ps = ps.
Proof. induction ps as [|[c|name] ps IH]; [done|..]; simpl; by rewrite IH. Qed.

Lemma expand_under_absent env_map q names ps :
  env_map !! KStr q = None ->
  flat_map (expand_under (q :: names) env_map) ps =
  flat_map (expand_under names env_map) ps.
Proof.
  intros Hq. induction ps as [|[c|name] ps IH]; [done|..]; simpl; rewrite IH; [done|].
  f_equal. destruct (String.eqb_spec name q) as [->|]; simpl; [|done].
  rewrite Hq. by destruct (existsb (String.eqb q) names).
Qed.

Lemma expand_under_replaced env_map q value names ps :
  env_map !! KStr q = Some (PStr value) ->
  flat_map (expand_under names env_map) (flat_map (replace_piece q value) ps) =
  flat_map (expand_under (q :: names) env_map) ps.
Proof.
  intros Hq. rewrite flat_map_flat_map.
  induction ps as [|[c|name] ps IH]; [done|..]; simpl; rewrite IH; [done|].
  f_equal. destruct (String.eqb_spec name q) as [->|]; simpl.
  - by rewrite Hq, expand_under_lits.
  - by rewrite app_nil_r.
Qed.

Lemma substitute_string env_map resolved_url placeholder value :
  env_map !! KStr placeholder = Some (PStr value) ->
  substitute env_map resolved_url placeholder =
  Ok (str_replace resolved_url (token placeholder) value).
Proof. intros Hp. unfold substitute. by rewrite Hp. Qed.

Lemma substitute_absent env_map resolved_url placeholder :
  env_map !! KStr placeholder = None ->
  substitute env_map resolved_url placeholder = Ok resolved_url.
Proof. intros Hp. unfold substitute. by rewrite Hp. Qed.

Lemma passes_render env_map placeholders ps :
  forallb clean_piece ps = true ->
  (forall q, In q placeholders -> brace_free q = true) ->
  (forall q v, In q placeholders -> env_map !! KStr q = Some v ->
               exists s, v = PStr s /\ no_open s = true) ->
  for_each (substitute env_map) placeholders (render ps) =
  Ok (render (flat_map (expand_under placeholders env_map) ps)).
Proof.
  revert ps. induction placeholders as [|q rest IH]; intros ps Hclean Hfree Hvalues.
  - simpl. by rewrite expand_under_nil.
  - simpl for_each.
    assert (forall q', In q' rest -> brace_free q' = true) as Hfree'
      by (intros; apply Hfree; by right).
    assert (forall q' v, In q' rest -> env_map !! KStr q' = Some v ->
                         exists s, v = PStr s /\ no_open s = true) as Hvalues'
      by (intros q' v' Hin; apply Hvalues; by right).
    destruct (env_map !! KStr q) as [v|] eqn:Hq.
    + destruct (Hvalues q v) as (value & -> & Hopen); [by left|done|].
      rewrite (substitute_string _ _ _ _ Hq), bind_Ok.
      rewrite replace_render by (done || apply Hfree; by left).
      rewrite IH by (done || by apply clean_replace_piece).
      by rewrite (expand_under_replaced _ _ _ _ _ Hq).
    + rewrite (substitute_absent _ _ _ Hq), bind_Ok, IH by done.
      by rewrite expand_under_absent.
Qed.

Lemma names_of_brace_free ps q :
  forallb well_formed_piece ps = true -> In q (names_of ps) -> brace_free q = true.
Proof.
  induction ps as [|[c|name] ps IH]; simpl; [done|by auto|].
  rewrite !andb_true_iff. intros [[Hfree _] Hps] [<-|Hin]; [done|by apply IH].
Qed.

Lemma existsb_eqb_In name names : In name names -> existsb (String.eqb name) names = true.
Proof.
  intros Hin. apply existsb_exists. exists name. split; [done|apply String.eqb_refl].
Qed.

Lemma expand_under_all env_map names ps :
  (forall name, In name (names_of ps) -> In name names) ->
  render (flat_map (expand_under names env_map) ps) = join (map (expand_piece env_map) ps).
Proof.
  induction ps as [|p ps IH]; intros Hnames; [done|].
  simpl flat_map. rewrite render_app, IH.
  - simpl. f_equal. destruct p as [c|name]; [done|]. simpl.
    rewrite existsb_eqb_In by (apply Hnames; by left).
    destruct (env_map !! KStr name) as [[]|]; try (unfold render; simpl; by rewrite append_nil_r).
    apply render_lits.
  - intros name Hin. apply Hnames. unfold names_of in *. simpl. apply in_or_app. by right.
Qed.

(** C4 (as amended).  When the raw URL has no opening brace outside its
    placeholder tokens, and the values of its placeholders are strings with
    no opening brace in them, every occurrence of a placeholder whose name
    is a key of the map is replaced by that key's value, and every other
    placeholder and all other text is left as it is. *)
Theorem resolve_url_single_pass (env_map : pydict) (raw_url : string) :
  no_stray_open raw_url = true ->
  (forall placeholder v,
      In placeholder (findall raw_url) ->
      env_map !! KStr placeholder = Some v ->
      exists value, v = PStr value /\ no_open value = true) ->
  resolve_url env_map raw_url = Ok (single_pass env_map raw_url).
Proof.
  intros Hstray Hvalues. unfold resolve_url, single_pass.
  rewrite <- (render_pieces raw_url) at 2. rewrite <- names_of_pieces in *.
  rewrite passes_render.
  - by rewrite expand_under_all.
  - by apply clean_pieces.
  - intros q. apply names_of_brace_free, well_formed_pieces_from.
  - done.
Qed.

Lemma resolve_url_single_pass_witness :
  resolve_url sample_env "{{host}}/v1/{{id}}/{{id}}" = Ok "api.example.com/v1/42/42"
  /\ resolve_url ∅ "{{base}}/x" = Ok "{{base}}/x".
Proof.
  split.
  - rewrite (resolve_url_single_pass sample_env "{{host}}/v1/{{id}}/{{id}}").
    + reflexivity.
    + reflexivity.
    + intros placeholder v [<-|[<-|[<-|[]]]] [= <-]; eexists; split; reflexivity.
  - rewrite (resolve_url_single_pass ∅ "{{base}}/x").
    + reflexivity.
    + reflexivity.
    + intros placeholder v _ Hv. by rewrite lookup_empty in Hv.
Defined.

(** C4, as stated, fails: the loop runs one [replace] pass for each
    occurrence found, so a value that holds its own token is expanded once
    more by the pass of the second occurrence. *)
Lemma resolve_url_expands_twice :
  resolve_url self_env "{{a}}-{{a}}" = Ok "<<{{a}}>>-<<{{a}}>>"
  /\ single_pass self_env "{{a}}-{{a}}" = "<{{a}}>-<{{a}}>".
Proof. split; vm_compute; reflexivity. Qed.

Lemma for_each_substitute_ext env_map env_map' placeholders resolved_url :
  (forall p, In p placeholders -> env_map !! KStr p = env_map' !! KStr p) ->
  for_each (substitute env_map) placeholders resolved_url =
  for_each (substitute env_map') placeholders resolved_url.
Proof.
  revert resolved_url. induction placeholders as [|p rest IH]; intros resolved_url Hsame; [done|].
  simpl for_each.
  replace (substitute env_map' resolved_url p) with (substitute env_map resolved_url p)
    by (unfold substitute; by rewrite (Hsame p) by (by left)).
  apply bind_ext. intros s. apply IH. intros q Hq. apply Hsame. by right.
Qed.

(** C1 (as amended).  The placeholders are collected from the raw URL once,
    before any replacement, and each of them gets one [replace] pass;
    nothing is searched for again afterwards.  So the resolved URL depends
    on the map only through the names found in the raw URL: a token of any
    other name is never expanded, wherever it comes from; and with a single
    placeholder the value is put in as it is, whatever tokens it holds. *)
Theorem resolve_url_only_found_placeholders (env_map env_map' : pydict) (raw_url : string) :
  (forall placeholder, In placeholder (findall raw_url) ->
                       env_map !! KStr placeholder = env_map' !! KStr placeholder) ->
  resolve_url env_map raw_url = resolve_url env_map' raw_url
  /\ (forall placeholder value,
        findall raw_url = [placeholder] ->
        env_map !! KStr placeholder = Some (PStr value) ->
        resolve_url env_map raw_url = Ok (str_replace raw_url (token placeholder) value)).
Proof.
  intros Hsame. split; [by apply for_each_substitute_ext|].
  intros placeholder value Hfound Hvalue. unfold resolve_url. rewrite Hfound. simpl.
  unfold substitute. by rewrite Hvalue.
Qed.

Lemma resolve_url_only_found_placeholders_witness :
  resolve_url nested_env "https://{{a}}/x" = Ok "https://{{b}}/x".
Proof.
  destruct (resolve_url_only_found_placeholders nested_env (<[KStr "a" := PStr "{{b}}"]> ∅)
              "https://{{a}}/x") as [Hsame Hone].
  - intros placeholder [<-|[]]. reflexivity.
  - rewrite Hsame. apply (Hone "a" "{{b}}"); reflexivity.
Defined.

(** C1, as stated, fails: the value of [a] holds the token of [b], which
    is a placeholder of the same URL; the pass for [b] comes after the pass
    for [a] and expands it. *)
Lemma resolve_url_expands_value :
  resolve_url nested_env "{{a}}/{{b}}" = Ok "X/X"
  /\ single_pass nested_env "{{a}}/{{b}}" = "{{b}}/X".
Proof. split; vm_compute; reflexivity. Qed.

(** ** The store: reading *)

Lemma stands_for_extend h ext v collection_item :
  stands_for h v collection_item -> stands_for (h ++ ext) v collection_item.
Proof.
  revert v.
  induction collection_item as [|b|z|f|s|items IH|entries IH] using pyval_nested_ind;
    intros v Hv; inversion Hv; subst; try constructor.
  - eapply stands_list; [by apply lookup_app_l_Some|].
    clear -IH H2. induction H2 as [|v pv vs pvs Hv Hvs IHvs]; [constructor|].
    inversion IH; subst. constructor; auto.
  - eapply stands_dict; [by apply lookup_app_l_Some|].
    clear -IH H2. induction H2 as [|ve e ves es [Hk Hv] Hvs IHvs]; [constructor|].
    inversion IH; subst. constructor; auto.
Qed.

Lemma entry_lookup_sim h k ves entries :
  Forall2 (fun ve e => ve.1 = e.1 /\ stands_for h ve.2 e.2) ves entries ->
  option_Forall2 (stands_for h) (entry_lookup k ves) (dict_lookup k entries).
Proof.
  induction 1 as [|[k1 v] [k2 pv] ves entries [Hk Hv] _ IH]; simpl in *; [constructor|].
  subst k2. destruct (String.eqb k1 k); [by constructor|done].
Qed.

Lemma is_str_sim h k v x :
  stands_for h v x ->
  is_str k v = match x with PStr s => String.eqb s k | _ => false end.
Proof. by inversion 1. Qed.

Section store_reads.
Variables (base more : store).

Lemma store_is_list_sim v collection_item :
  stands_for base v collection_item ->
  store_is_list v (base ++ more) =
  Returns match collection_item with PList _ => true | _ => false end.
Proof.
  inversion 1; subst; simpl; try done.
  - by rewrite (lookup_app_l_Some _ _ _ _ H0).
  - by rewrite (lookup_app_l_Some _ _ _ _ H0).
Qed.

Lemma store_in_sim k v collection_item :
  stands_for base v collection_item ->
  sim eq (store_in k v (base ++ more)) (py_in k collection_item).
Proof.
  inversion 1; subst; simpl; try done.
  - rewrite (lookup_app_l_Some _ _ _ _ H0). simpl.
    clear -H1. induction H1 as [|v pv vs pvs Hv _ IH]; [done|]. simpl.
    by rewrite (is_str_sim _ _ _ _ Hv), IH.
  - rewrite (lookup_app_l_Some _ _ _ _ H0). simpl.
    pose proof (entry_lookup_sim _ k _ _ H1) as Hl.
    destruct Hl; [rewrite !bool_decide_true by eauto; done|].
    rewrite !bool_decide_false; [done|by intros [? ?]..].
Qed.

Lemma store_subscript_sim k v collection_item :
  stands_for base v collection_item ->
  sim (stands_for base) (store_subscript v k (base ++ more)) (subscript collection_item k).
Proof.
  inversion 1; subst; simpl; try done.
  - by rewrite (lookup_app_l_Some _ _ _ _ H0).
  - rewrite (lookup_app_l_Some _ _ _ _ H0).
    by destruct (entry_lookup_sim _ k _ _ H1).
Qed.

Lemma store_get_sim k v collection_item dv default :
  stands_for base v collection_item ->
  stands_for base dv default ->
  sim (stands_for base) (store_get v k dv (base ++ more)) (py_get collection_item k default).
Proof.
  inversion 1; subst; simpl; try done.
  - by rewrite (lookup_app_l_Some _ _ _ _ H0).
  - rewrite (lookup_app_l_Some _ _ _ _ H0).
    by destruct (entry_lookup_sim _ k _ _ H1).
Qed.

Variables (env : val) (env_map : pydict).
Hypothesis Henv : stands_for_map base env env_map.

Lemma store_substitute_sim resolved_url placeholder :
  sim eq (store_substitute env (base ++ more) resolved_url placeholder)
    (substitute env_map resolved_url placeholder).
Proof.
  destruct Henv as (l & bindings & -> & Hl & Hb).
  unfold store_substitute, substitute, store_in, store_subscript.
  rewrite (lookup_app_l_Some _ _ _ _ Hl).
  destruct (Hb (KStr placeholder)) as [v pv Hv|].
  - rewrite bool_decide_true by eauto. simpl. by inversion Hv.
  - rewrite bool_decide_false; [done|by intros [? ?]].
Qed.

Lemma for_each_read_sim placeholders resolved_url :
  sim eq (for_each_read (store_substitute env (base ++ more)) placeholders resolved_url)
    (for_each (substitute env_map) placeholders resolved_url).
Proof.
  revert resolved_url. induction placeholders as [|p rest IH]; intros resolved_url; [done|].
  simpl. pose proof (store_substitute_sim resolved_url p) as Hs.
  destruct (substitute env_map resolved_url p) as [s|e],
    (store_substitute env (base ++ more) resolved_url p) as [s'|e'|]; simpl in *; try done.
  subst s'. apply IH.
Qed.

Lemma store_extract_sim v collection_item :
  stands_for base v collection_item ->
  sim (fun tuple found => exists r, found = [r] /\ stands_for_request base tuple r)
    (store_extract env v (base ++ more)) (extract_request env_map collection_item).
Proof.
  intros Hv. unfold store_extract, extract_request.
  pose proof (store_subscript_sim "request" _ _ Hv) as Hreq.
  destruct (subscript collection_item "request") as [request|e],
    (store_subscript v "request" (base ++ more)) as [vrequest|e'|]; simpl in *; try done.
  pose proof (store_subscript_sim "url" _ _ Hreq) as Hurl.
  destruct (subscript request "url") as [url|e],
    (store_subscript vrequest "url" (base ++ more)) as [vurl|e'|]; simpl in *; try done.
  pose proof (store_subscript_sim "raw" _ _ Hurl) as Hraw.
  destruct (subscript url "raw") as [raw_url|e],
    (store_subscript vurl "raw" (base ++ more)) as [vraw|e'|]; simpl in *; try done.
  pose proof (store_get_sim "method" _ _ (VStr "N/A") (PStr "N/A") Hreq (stands_str _ _)) as Hm.
  destruct (py_get request "method" (PStr "N/A")) as [method|e],
    (store_get vrequest "method" (VStr "N/A") (base ++ more)) as [vmethod|e'|];
    simpl in *; try done.
  inversion Hraw; subst; simpl; try done.
  pose proof (for_each_read_sim (findall s) s) as Hres. unfold resolve_url.
  destruct (for_each (substitute env_map) (findall s) s) as [u|e],
    (for_each_read (store_substitute env (base ++ more)) (findall s) s) as [u'|e'|];
    simpl in *; try done.
  subst u'. eexists. split; [done|]. by exists vmethod.
Qed.
End store_reads.

(** ** The store: running *)

Lemma stateful_bind_run {A B : Type} (c : stateful A) (k : A -> stateful B) (h : store) :
  (c ≫= k) h =
  match c h with
  | (Returns a, h') => k a h'
  | (Raises e, h') => (Raises e, h')
  | (Stuck, h') => (Stuck, h')
  end.
Proof. reflexivity. Qed.

Lemma store_middle_lookup (h ext : store) (o : obj) :
  (h ++ o :: ext) !! length h = Some o.
Proof. by apply list_lookup_middle. Qed.

Lemma store_middle_insert (h ext : store) (o o' : obj) :
  <[length h := o']> (h ++ o :: ext) = h ++ o' :: ext.
Proof. rewrite insert_app_r_alt by lia. by rewrite Nat.sub_diag. Qed.

Lemma weight_In item items :
  In item items -> (weight item <= list_sum (map weight items))%nat.
Proof.
  induction items as [|x items IH]; [done|]. simpl.
  intros [->|Hin]; [lia|]. specialize (IH Hin). lia.
Qed.

Lemma weight_entry k v entries :
  In (k, v) entries ->
  (weight v <= list_sum (map (fun kv : string * pyval => weight kv.2) entries))%nat.
Proof.
  induction entries as [|x entries IH]; [done|]. simpl.
  intros [->|Hin]; [simpl; lia|]. specialize (IH Hin). lia.
Qed.

Section store_run.
Variables (env : val) (env_map : pydict).

(** The loop over a list: from a store that begins with [base], with the
    function's own list next, it leaves everything but its own list as it
    was, and its own list grows by what the items give. *)
Lemma each_item_spec fuel base more lc all_vs :
  base !! lc = Some (OList all_vs) ->
  stands_for_map base env env_map ->
  forall rest vs_rest done acc found_so_far ext turns,
    all_vs = done ++ vs_rest ->
    Forall2 (stands_for base) vs_rest rest ->
    Forall (run_spec env env_map) rest ->
    (forall item, In item rest -> (weight item <= fuel)%nat) ->
    (length rest < turns)%nat ->
    Forall2 (stands_for_request base) acc found_so_far ->
    exists o acc' ext',
      each_item (find_and_process_items_store fuel env) (length (base ++ more))
        (VRef lc) turns (length done) ((base ++ more) ++ OList acc :: ext)
      = (o, (base ++ more) ++ OList acc' :: ext')
      /\ sim (fun v resolved_requests =>
                v = VRef (length (base ++ more)) /\
                Forall2 (stands_for_request base) acc' resolved_requests)
           o (for_each (extend (find_and_process_items env_map)) rest found_so_far).
Proof.
  intros Hlc Henv rest.
  induction rest as [|item rest IH];
    intros vs_rest done acc found_so_far ext turns Hall Hvs Hspec Hfuel Hturns Hacc.
  - inversion Hvs; subst. destruct turns as [|turns]; [simpl in Hturns; lia|].
    exists (Returns (VRef (length (base ++ more)))), acc, ext.
    split; [|done]. simpl. rewrite stateful_bind_run. unfold read, next_item.
    rewrite <- app_assoc, (lookup_app_l_Some _ _ _ _ Hlc).
    rewrite app_nil_r, lookup_ge_None_2 by lia. done.
  - inversion Hvs as [|v ? vs_rest' ? Hv Hvs']; subst.
    inversion Hspec as [|? ? Hitem Hrest]; subst.
    destruct turns as [|turns]; [simpl in Hturns; lia|].
    simpl each_item. rewrite stateful_bind_run. unfold read at 1, next_item.
    rewrite <- app_assoc, (lookup_app_l_Some _ _ _ _ Hlc).
    rewrite list_lookup_middle by done.
    rewrite stateful_bind_run.
    destruct (Hitem fuel base (more ++ OList acc :: ext) v) as (o1 & ext1 & Hrun & Hagree);
      [apply Hfuel; by left|done|done|].
    rewrite Hrun. simpl for_each. rewrite extend_eq.
    unfold agrees, sim in Hagree.
    destruct (find_and_process_items env_map item) as [found|e].
    + destruct o1 as [v1|e1|]; try done.
      destruct Hagree as (l1 & vs1 & -> & Hl1 & Hfound).
      rewrite stateful_bind_run. unfold list_extend at 1.
      rewrite !app_assoc in *. rewrite <- (app_assoc _ _ ext1) in *. simpl app in *.
      rewrite store_middle_lookup, Hl1, store_middle_insert.
      destruct (IH vs_rest' (done ++ [v]) (acc ++ vs1) (found_so_far ++ found)
                  (ext ++ ext1) turns) as (o & acc' & ext' & Hloop & Hsim).
      * by rewrite <- app_assoc.
      * done.
      * done.
      * intros; apply Hfuel; by right.
      * simpl in Hturns. lia.
      * by apply Forall2_app.
      * exists o, acc', ext'. split; [|done].
        replace (length (done ++ [v])) with (S (length done)) in Hloop
          by (rewrite length_app; simpl; lia).
        exact Hloop.
    + destruct o1 as [v1|e1|]; try done. subst e1.
      exists (Raises e), acc, (ext ++ ext1). split; [|done].
      by rewrite <- !app_assoc.
Qed.

Lemma append_own_request_spec base more v entries acc ext :
  stands_for base v (PDict entries) ->
  stands_for_map base env env_map ->
  exists own,
    append_own_request (length (base ++ more)) env v ((base ++ more) ++ OList acc :: ext)
    = (Returns (), (base ++ more) ++ OList (acc ++ own) :: ext)
    /\ Forall2 (stands_for_request base) own (own_requests env_map (PDict entries)).
Proof.
  intros Hv Henv. unfold append_own_request. rewrite stateful_bind_run. unfold read at 1.
  rewrite <- app_assoc.
  pose proof (store_in_sim base (more ++ OList acc :: ext) "request" _ _ Hv) as Hin.
  pose proof (try_extract_request env_map entries) as Hown.
  pose proof (extract_request_no_AttributeError env_map entries) as Hattr.
  pose proof (store_extract_sim base (more ++ OList acc :: ext) env env_map Henv _ _ Hv)
    as Hextract.
  simpl in Hin.
  destruct (store_in "request" v (base ++ more ++ OList acc :: ext)) as [b|e|]; try done.
  simpl in Hin. subst b.
  destruct (bool_decide (is_Some (dict_lookup "request" entries))).
  - unfold try_pass. rewrite stateful_bind_run. unfold read.
    destruct (extract_request env_map (PDict entries)) as [found|e] eqn:Hex.
    + destruct (store_extract env v (base ++ more ++ OList acc :: ext)) as [tuple|e'|];
        try done.
      destruct Hextract as (r & -> & Hr). injection Hown as <-.
      exists [tuple]. split; [|by constructor].
      unfold list_append. rewrite app_assoc, store_middle_lookup, store_middle_insert. done.
    + destruct (store_extract env v (base ++ more ++ OList acc :: ext)) as [tuple|e'|];
        try done.
      simpl in Hextract. subst e'. unfold own_requests. rewrite Hex.
      exists []. rewrite app_nil_r, app_assoc. split; [|constructor].
      by destruct e.
  - injection Hown as <-. exists []. rewrite app_nil_r, app_assoc. split; [done|constructor].
Qed.

Lemma extend_with_nested_spec fuel base more l ves entries :
  base !! l = Some (ODict ves) ->
  Forall2 (fun ve e => ve.1 = e.1 /\ stands_for base ve.2 e.2) ves entries ->
  Forall (fun kv : string * pyval => run_spec env env_map kv.2) entries ->
  (weight (PDict entries) <= S fuel)%nat ->
  stands_for_map base env env_map ->
  exists o acc ext,
    extend_with_nested (find_and_process_items_store fuel env) (length (base ++ more))
      (VRef l) ((base ++ more) ++ [OList []])
    = (o, (base ++ more) ++ OList acc :: ext)
    /\ sim (fun _ nested => Forall2 (stands_for_request base) acc nested) o
         match dict_lookup "item" entries with
         | Some (PList items) => find_and_process_items env_map (PList items)
         | _ => Ok []
         end.
Proof.
  intros Hl Hves IH Hfuel Henv. unfold extend_with_nested.
  rewrite stateful_bind_run. unfold read at 1, store_in.
  rewrite <- app_assoc, (lookup_app_l_Some _ _ _ _ Hl).
  pose proof (entry_lookup_sim base "item" _ _ Hves) as Hitem.
  destruct (entry_lookup "item" ves) as [iv|] eqn:Hlv,
    (dict_lookup "item" entries) as [item|] eqn:Hlp;
    inversion Hitem as [? ? Hiv|]; subst.
  2: { rewrite bool_decide_false by (by intros [? ?]).
       exists (Returns ()), [], []. split; [by rewrite <- app_assoc|constructor]. }
  rewrite bool_decide_true by eauto.
  rewrite stateful_bind_run. unfold read at 1, store_subscript.
  rewrite (lookup_app_l_Some _ _ _ _ Hl), Hlv.
  rewrite stateful_bind_run. unfold read at 1.
  rewrite (store_is_list_sim base (more ++ [OList []]) _ _ Hiv).
  destruct item as [| | | | |items|];
    try (exists (Returns ()), [], []; split; [by rewrite <- app_assoc|constructor]).
  rewrite stateful_bind_run. unfold read at 1, store_subscript.
  rewrite (lookup_app_l_Some _ _ _ _ Hl), Hlv.
  rewrite stateful_bind_run.
  apply dict_lookup_In in Hlp as Hin.
  rewrite List.Forall_forall in IH. specialize (IH _ Hin). simpl in IH.
  destruct (IH fuel base (more ++ [OList []]) iv) as (o1 & ext1 & Hrun & Hagree);
    [|done|done|].
  { pose proof (weight_entry _ _ _ Hin). simpl in Hfuel. lia. }
  rewrite Hrun. unfold agrees, sim in Hagree.
  destruct (find_and_process_items env_map (PList items)) as [nested|e].
  - destruct o1 as [v1|e1|]; try done.
    destruct Hagree as (l1 & vs1 & -> & Hl1 & Hnested).
    exists (Returns ()), vs1, ext1. split; [|done].
    unfold list_extend.
    rewrite !app_assoc in *. rewrite <- (app_assoc _ _ ext1) in *. simpl app in *.
    by rewrite store_middle_lookup, Hl1, store_middle_insert.
  - destruct o1 as [v1|e1|]; try done. subst e1.
    exists (Raises e), [], ext1. split; [|done].
    by rewrite <- !app_assoc.
Qed.

Lemma run_spec_all collection_item : run_spec env env_map collection_item.
Proof.
  induction collection_item as [|b|z|f|s|items IH|entries IH] using pyval_nested_ind;
    intros fuel base more v Hfuel Hv Henv; inversion Hv; subst;
    (destruct fuel as [|fuel]; [simpl in Hfuel; lia|]).
  - exists (Raises TypeError), [OList []]. split; [done|]. unfold agrees.
    by rewrite find_and_process_items_unfold.
  - exists (Raises TypeError), [OList []]. split; [done|]. unfold agrees.
    by rewrite find_and_process_items_unfold.
  - exists (Raises TypeError), [OList []]. split; [done|]. unfold agrees.
    by rewrite find_and_process_items_unfold.
  - exists (Raises TypeError), [OList []]. split; [done|]. unfold agrees.
    by rewrite find_and_process_items_unfold.
  - (* a string *)
    rewrite walk_str. destruct (str_contains "item" s) eqn:Hitem.
    + exists (Raises TypeError), [OList []]. split; [|done].
      simpl. unfold find_and_process_items_store_body, extend_with_nested, new_list.
      rewrite !stateful_bind_run. unfold read. simpl. by rewrite Hitem.
    + exists (Returns (VRef (length (base ++ more)))), [OList []]. split.
      * simpl.
        unfold find_and_process_items_store_body, extend_with_nested,
          append_own_request, new_list.
        rewrite !stateful_bind_run. unfold read. simpl. rewrite Hitem. simpl.
        by destruct (str_contains "request" s).
      * exists (length (base ++ more)), []. split; [done|].
        split; [apply store_middle_lookup|constructor].
  - (* a list *)
    destruct (each_item_spec fuel base more l vs H0 Henv items vs [] [] [] [] fuel)
      as (o & acc' & ext' & Hloop & Hsim); try done.
    + intros item Hin. pose proof (weight_In _ _ Hin). simpl in Hfuel. lia.
    + simpl in Hfuel. lia.
    + exists o, (OList acc' :: ext'). split.
      * simpl find_and_process_items_store.
        unfold find_and_process_items_store_body, new_list.
        rewrite !stateful_bind_run. unfold read, store_is_list.
        rewrite <- app_assoc, (lookup_app_l_Some _ _ _ _ H0), app_assoc.
        exact Hloop.
      * unfold agrees. rewrite find_and_process_items_unfold. simpl.
        destruct (for_each _ items []) as [found|e], o as [v|e'|]; simpl in *; try done.
        destruct Hsim as [-> Hfound].
        exists (length (base ++ more)), acc'. split; [done|].
        split; [apply store_middle_lookup|done].
  - (* a dictionary *)
    destruct (extend_with_nested_spec fuel base more l ves entries)
      as (o1 & acc & ext & Hnested & Hsim); try done.
    rewrite walk_dict.
    simpl find_and_process_items_store.
    unfold find_and_process_items_store_body, new_list.
    rewrite !stateful_bind_run. unfold read at 1, store_is_list.
    rewrite <- app_assoc, (lookup_app_l_Some _ _ _ _ H0), app_assoc.
    rewrite stateful_bind_run, Hnested.
    destruct (match dict_lookup "item" entries with
              | Some (PList items) => find_and_process_items env_map (PList items)
              | _ => Ok []
              end) as [nested|e].
    + destruct o1 as [[]|e1|]; try done. simpl in Hsim.
      destruct (append_own_request_spec base more (VRef l) entries acc ext Hv Henv)
        as (own & Hown & Hstands).
      rewrite stateful_bind_run, Hown.
      exists (Returns (VRef (length (base ++ more)))), (OList (acc ++ own) :: ext).
      split; [done|].
      exists (length (base ++ more)), (acc ++ own). split; [done|].
      split; [apply store_middle_lookup|by apply Forall2_app].
    + destruct o1 as [[]|e1|]; try done. simpl in Hsim. subst e1.
      by exists (Raises e), (OList acc :: ext).
Qed.
End store_run.

Lemma stands_for_map_extend h ext env env_map :
  stands_for_map h env env_map -> stands_for_map (h ++ ext) env env_map.
Proof.
  intros (l & bindings & -> & Hl & Hb). exists l, bindings.
  split; [done|]. split; [by apply lookup_app_l_Some|].
  intros k. destruct (Hb k); constructor. by apply stands_for_extend.
Qed.

(** C9.  The function read over a store, from a store [h] in which [v]
    stands for a collection and [env] for a variable map, and run twice:
    each run leaves every object that was in the store as it was (the
    store after it is the store before it with new objects at its end),
    so the collection and the map are what they were; and both runs have
    the outcome of the function on documents: the same exception, or lists
    of the same requests. *)
Theorem find_and_process_items_store_pure
    (env_map : pydict) (collection_item : pyval)
    (h : store) (env v : val) (fuel : nat) :
  stands_for h v collection_item ->
  stands_for_map h env env_map ->
  (weight collection_item <= fuel)%nat ->
  exists o1 ext1 o2 ext2,
    find_and_process_items_store fuel env v h = (o1, h ++ ext1)
    /\ find_and_process_items_store fuel env v (h ++ ext1) = (o2, (h ++ ext1) ++ ext2)
    /\ agrees h (h ++ ext1) o1 (find_and_process_items env_map collection_item)
    /\ agrees h ((h ++ ext1) ++ ext2) o2 (find_and_process_items env_map collection_item)
    /\ stands_for ((h ++ ext1) ++ ext2) v collection_item
    /\ stands_for_map ((h ++ ext1) ++ ext2) env env_map.
Proof.
  intros Hv Henv Hfuel.
  destruct (run_spec_all env env_map collection_item fuel h [] v Hfuel Hv Henv)
    as (o1 & ext1 & Hrun1 & Hagree1).
  destruct (run_spec_all env env_map collection_item fuel h ext1 v Hfuel Hv Henv)
    as (o2 & ext2 & Hrun2 & Hagree2).
  rewrite app_nil_r in Hrun1, Hagree1.
  exists o1, ext1, o2, ext2. repeat split; try done.
  - rewrite <- app_assoc. by apply stands_for_extend.
  - rewrite <- app_assoc. by apply stands_for_map_extend.
Qed.

Lemma sample_store_stands :
  stands_for sample_store (VRef 4) (PList [request_node "GET" "{{host}}/a"])
  /\ stands_for_map sample_store (VRef 0) (<[KStr "host" := PStr "api.example.com"]> ∅).
Proof.
  split.
  - eapply stands_list; [reflexivity|]. repeat constructor.
    eapply stands_dict; [reflexivity|]. repeat constructor. simpl.
    eapply stands_dict; [reflexivity|]. repeat constructor. simpl.
    eapply stands_dict; [reflexivity|]. repeat constructor.
  - eexists 0%nat, _. split; [done|]. split; [reflexivity|].
    intros k. rewrite !lookup_insert. case_decide; [repeat constructor|].
    rewrite !lookup_empty. constructor.
Qed.

Lemma find_and_process_items_store_pure_witness :
  exists o1 ext1 o2 ext2,
    find_and_process_items_store 10 (VRef 0) (VRef 4) sample_store
      = (o1, sample_store ++ ext1)
    /\ find_and_process_items_store 10 (VRef 0) (VRef 4) (sample_store ++ ext1)
      = (o2, (sample_store ++ ext1) ++ ext2)
    /\ agrees sample_store (sample_store ++ ext1) o1
         (find_and_process_items (<[KStr "host" := PStr "api.example.com"]> ∅)
            (PList [request_node "GET" "{{host}}/a"]))
    /\ agrees sample_store ((sample_store ++ ext1) ++ ext2) o2
         (find_and_process_items (<[KStr "host" := PStr "api.example.com"]> ∅)
            (PList [request_node "GET" "{{host}}/a"]))
    /\ stands_for ((sample_store ++ ext1) ++ ext2) (VRef 4)
         (PList [request_node "GET" "{{host}}/a"])
    /\ stands_for_map ((sample_store ++ ext1) ++ ext2) (VRef 0)
         (<[KStr "host" := PStr "api.example.com"]> ∅).
Proof.
  apply find_and_process_items_store_pure.
  - apply sample_store_stands.
  - apply sample_store_stands.
  - vm_compute. lia.
Defined.

(** The run on the sample store: the new lists are at locations 5 and 6,
    the result is the list at 5, and the five objects of the store are as
    they were. *)
Lemma sample_store_run :
  find_and_process_items_store 10 (VRef 0) (VRef 4) sample_store
  = (Returns (VRef 5),
     sample_store ++ [OList [VTuple (VStr "GET") (VStr "api.example.com/a")];
                      OList [VTuple (VStr "GET") (VStr "api.example.com/a")]]).
Proof. vm_compute. reflexivity. Qed.

(** * Further properties *)

(** ** [strip] *)

#[local] Arguments is_stripped : simpl never.

Lemma lstrip_padding pad s : only_stripped pad = true -> lstrip (pad +:+ s) = lstrip s.
Proof.
  induction pad as [|c pad IH]; [done|]. simpl.
  intros [Hc Hpad]%andb_true_iff. rewrite Hc. by apply IH.
Qed.

Lemma lstrip_clean s : clean_end (first_char s) = true -> lstrip s = s.
Proof. destruct s as [|c s]; [done|]. simpl. by intros ->%negb_true_iff. Qed.

Lemma rstrip_only_stripped pad : only_stripped pad = true -> rstrip pad = "".
Proof.
  induction pad as [|c pad IH]; [done|]. simpl.
  intros [Hc Hpad]%andb_true_iff. by rewrite IH, Hc.
Qed.

Lemma rstrip_padding s pad : only_stripped pad = true -> rstrip (s +:+ pad) = rstrip s.
Proof.
  intros Hpad. induction s as [|c s IH]; simpl.
  - by apply rstrip_only_stripped.
  - by rewrite IH.
Qed.

Lemma rstrip_clean s : clean_end (last_char s) = true -> rstrip s = s.
Proof.
  induction s as [|c s IH]; [done|]. destruct s as [|c' s].
  - simpl. by intros ->%negb_true_iff.
  - intros Hlast. change (rstrip (String c (String c' s)))
      with (match rstrip (String c' s) with
            | EmptyString => if is_stripped c then EmptyString else String c EmptyString
            | String c'' r => String c (String c'' r)
            end).
    by rewrite IH.
Qed.

Lemma lstrip_first s : clean_end (first_char (lstrip s)) = true.
Proof.
  induction s as [|c s IH]; [done|]. simpl.
  destruct (is_stripped c) eqn:Hc; [done|]. simpl. by rewrite Hc.
Qed.

Lemma rstrip_last s : clean_end (last_char (rstrip s)) = true.
Proof.
  induction s as [|c s IH]; [done|]. simpl.
  destruct (rstrip s) as [|c' r].
  - destruct (is_stripped c) eqn:Hc; [done|]. simpl. by rewrite Hc.
  - exact IH.
Qed.

Lemma rstrip_first s :
  clean_end (first_char s) = true -> clean_end (first_char (rstrip s)) = true.
Proof.
  destruct s as [|c s]; [done|]. simpl. intros Hc.
  destruct (rstrip s); [|done].
  destruct (is_stripped c) eqn:E; simpl in *; [done|by rewrite E].
Qed.

Lemma lstrip_only_stripped pad : only_stripped pad = true -> lstrip pad = "".
Proof.
  induction pad as [|c pad IH]; [done|]. simpl.
  intros [Hc Hpad]%andb_true_iff. rewrite Hc. by apply IH.
Qed.

Lemma strip_padding_core pad_left path pad_right :
  only_stripped pad_left = true -> only_stripped pad_right = true ->
  clean_end (first_char path) = true -> clean_end (last_char path) = true ->
  strip (pad_left +:+ path +:+ pad_right) = path.
Proof.
  intros Hl Hr Hfirst Hlast. unfold strip. rewrite lstrip_padding by done.
  destruct path as [|c path].
  - simpl. by rewrite lstrip_only_stripped.
  - rewrite lstrip_clean by done. by rewrite rstrip_padding, rstrip_clean.
Qed.

(** X1.  A path typed with spaces and double quotes around it is read as
    the path itself: [strip] takes off any run of the two characters at
    either end and nothing else, when the path itself neither begins nor
    ends with one of them. *)
Theorem strip_padding (pad_left path pad_right : string) :
  only_stripped pad_left = true -> only_stripped pad_right = true ->
  clean_end (first_char path) = true -> clean_end (last_char path) = true ->
  strip (pad_left +:+ path +:+ pad_right) = path.
Proof. apply strip_padding_core. Qed.

Lemma strip_padding_witness :
  strip (String " " (String quote ("C:\My Files\env.json" +:+ String quote "  ")))
  = "C:\My Files\env.json".
Proof.
  apply (strip_padding (String " " (String quote "")) "C:\My Files\env.json"
           (String quote "  ")); reflexivity.
Defined.

(** X2.  What [strip] returns neither begins nor ends with a space or a
    double quote, and stripping it again changes nothing. *)
Theorem strip_clean_ends (s : string) :
  clean_end (first_char (strip s)) = true
  /\ clean_end (last_char (strip s)) = true
  /\ strip (strip s) = strip s.
Proof.
  assert (clean_end (first_char (strip s)) = true) as Hfirst
    by apply rstrip_first, lstrip_first.
  assert (clean_end (last_char (strip s)) = true) as Hlast by apply rstrip_last.
  split; [done|]. split; [done|].
  unfold strip at 1. by rewrite lstrip_clean, rstrip_clean.
Qed.

(** X3.  [main] reads a padded path as the path: typed with spaces and
    double quotes around them, the two paths give the same output. *)
Theorem main_padded_paths (pad1 path1 pad1' pad2 path2 pad2' : string)
    (load : string -> loaded) :
  only_stripped pad1 = true -> only_stripped pad1' = true ->
  only_stripped pad2 = true -> only_stripped pad2' = true ->
  clean_end (first_char path1) = true -> clean_end (last_char path1) = true ->
  clean_end (first_char path2) = true -> clean_end (last_char path2) = true ->
  main (pad1 +:+ path1 +:+ pad1') (pad2 +:+ path2 +:+ pad2') load = main path1 path2 load.
Proof.
  intros. unfold main. rewrite !strip_padding_core by done.
  unfold strip. by rewrite !lstrip_clean, !rstrip_clean.
Qed.

Lemma main_padded_paths_witness :
  main (String quote ("col.json" +:+ String quote "")) " env.json "
    (fun path => if String.eqb path "col.json" then Loaded (PDict [])
                 else if String.eqb path "env.json" then JSONDecodeError
                 else FileNotFoundError)
  = [Text decode_text].
Proof.
  rewrite (main_padded_paths (String quote "") "col.json" (String quote "")
             " " "env.json" " "); reflexivity.
Defined.

(** ** The environment map as a list of bindings *)

Lemma binds_binding item k v : binds item k v <-> binding item = Some (k, v).
Proof.
  unfold binds, binding. split.
  - intros (es & en & key & -> & Hen & Htr & Hkey & Hval & Hk).
    by rewrite Hen, Hkey, Hval, Htr, Hk.
  - destruct item as [| | | | | |es]; try done.
    destruct (dict_lookup "enabled" es) as [en|] eqn:Hen; [|done].
    destruct (dict_lookup "key" es) as [key|] eqn:Hkey; [|done].
    destruct (dict_lookup "value" es) as [val|] eqn:Hval; [|done].
    destruct (truthy en) eqn:Htr; [|done].
    destruct (hash_key key) as [k'|] eqn:Hk; [|done].
    intros [= <- <-]. by exists es, en, key.
Qed.

Lemma add_entry_binding variable_map item :
  entry_ok item = true ->
  add_entry variable_map item =
  Ok match binding item with
     | Some (k, v) => <[k := v]> variable_map
     | None => variable_map
     end.
Proof.
  destruct item as [| | | | | |es]; try done.
  rewrite add_entry_dict. unfold entry_ok, binding.
  destruct (dict_lookup "enabled" es) as [en|]; [|done].
  destruct (dict_lookup "key" es) as [key|]; [|done].
  destruct (dict_lookup "value" es) as [val|]; [|done].
  destruct (truthy en); [|done]. simpl.
  intros [k Hk]%hash_key_returns. by rewrite Hk.
Qed.

Lemma load_bindings items variable_map :
  forallb entry_ok items = true ->
  for_each add_entry items variable_map =
  Ok (list_to_map (reverse (bindings_of items)) ∪ variable_map).
Proof.
  revert variable_map. induction items as [|item rest IH]; intros variable_map.
  - intros _. simpl. by rewrite (left_id_L ∅ (∪)).
  - simpl. intros [Hok Hrest]%andb_true_iff.
    rewrite add_entry_binding by done. simpl. rewrite IH by done.
    unfold bindings_of. simpl. destruct (binding item) as [[k v]|]; [|done].
    rewrite reverse_cons, list_to_map_app. simpl.
    rewrite <- (assoc_L (∪)). f_equal. f_equal.
    by rewrite insert_union_singleton_l, (insert_union_singleton_l ∅),
      (right_id_L ∅ (∪)).
Qed.

Lemma get_environment_map_bindings entries items :
  dict_lookup "values" entries = Some (PList items) ->
  forallb entry_ok items = true ->
  get_environment_map (PDict entries) = Ok (list_to_map (reverse (bindings_of items))).
Proof.
  intros Hv Hok. rewrite (get_environment_map_values _ _ Hv), load_bindings by done.
  by rewrite (right_id_L ∅ (∪)).
Qed.

Lemma bindings_empty_map (bs : list (hkey * pyval)) :
  (list_to_map (reverse bs) : pydict) = ∅ <-> bs = [].
Proof.
  split; [|by intros ->].
  destruct bs as [|[k v] bs]; [done|]. rewrite reverse_cons, list_to_map_app. simpl.
  intros Hempty. apply (f_equal (fun m : pydict => m !! k)) in Hempty.
  rewrite lookup_empty in Hempty. apply lookup_union_None in Hempty as [_ Hk].
  by rewrite lookup_insert_eq in Hk.
Qed.

(** X4.  Two environments one after the other: the map of the entries
    [items1 ++ items2] is the map of [items2] completed by the map of
    [items1]; where both bind a key, the second wins. *)
Theorem get_environment_map_app
    (entries1 entries2 entries : list (string * pyval)) (items1 items2 : list pyval)
    (map1 map2 : pydict) :
  dict_lookup "values" entries1 = Some (PList items1) ->
  dict_lookup "values" entries2 = Some (PList items2) ->
  dict_lookup "values" entries = Some (PList (items1 ++ items2)) ->
  get_environment_map (PDict entries1) = Ok map1 ->
  get_environment_map (PDict entries2) = Ok map2 ->
  get_environment_map (PDict entries) = Ok (map2 ∪ map1).
Proof.
  intros Hv1 Hv2 Hv Hm1 Hm2.
  rewrite (get_environment_map_values _ _ Hv1) in Hm1.
  rewrite (get_environment_map_values _ _ Hv2) in Hm2.
  rewrite (get_environment_map_values _ _ Hv), for_each_app, Hm1. simpl.
  assert (forallb entry_ok items2 = true) as Hok2 by (apply (load_returns items2 ∅); by eexists).
  rewrite load_bindings in Hm2 by done. injection Hm2 as <-.
  rewrite load_bindings by done. by rewrite (right_id_L ∅ (∪)).
Qed.

Lemma get_environment_map_app_witness :
  get_environment_map
    (env_document ([env_entry true "host" "a"; env_entry true "id" "1"]
                   ++ [env_entry true "id" "2"]))
  = Ok ((<[KStr "id" := PStr "2"]> ∅) ∪
        (<[KStr "id" := PStr "1"]> (<[KStr "host" := PStr "a"]> ∅))).
Proof.
  apply (get_environment_map_app
           [("values", PList [env_entry true "host" "a"; env_entry true "id" "1"])]
           [("values", PList [env_entry true "id" "2"])]
           [("name", PStr "dev");
            ("values", PList ([env_entry true "host" "a"; env_entry true "id" "1"]
                              ++ [env_entry true "id" "2"]))]
           [env_entry true "host" "a"; env_entry true "id" "1"]
           [env_entry true "id" "2"]); reflexivity.
Defined.

(** X5.  When no two entries bind the same key (the variables are unique,
    as the script asks), the order of the entries does not matter: a
    document with the same entries in another order gives the same map. *)
Theorem get_environment_map_permutation
    (entries entries' : list (string * pyval)) (items items' : list pyval)
    (variable_map : pydict) :
  dict_lookup "values" entries = Some (PList items) ->
  dict_lookup "values" entries' = Some (PList items') ->
  Permutation items items' ->
  NoDup (bindings_of items).*1 ->
  get_environment_map (PDict entries) = Ok variable_map ->
  get_environment_map (PDict entries') = Ok variable_map.
Proof.
  intros Hv Hv' Hperm Hnodup Hm.
  assert (forallb entry_ok items = true) as Hok.
  { apply (load_returns items ∅). rewrite <- (get_environment_map_values _ _ Hv). by eexists. }
  assert (forallb entry_ok items' = true) as Hok'.
  { apply forallb_forall. intros item Hin. eapply forallb_forall in Hok; [done|].
    by apply (Permutation_in _ (Permutation_sym Hperm)). }
  rewrite (get_environment_map_bindings _ _ Hv Hok) in Hm. injection Hm as <-.
  rewrite (get_environment_map_bindings _ _ Hv' Hok'). f_equal.
  symmetry. apply list_to_map_proper.
  - by rewrite fmap_reverse, reverse_Permutation.
  - rewrite !reverse_Permutation. unfold bindings_of. by rewrite Hperm.
Qed.

Lemma get_environment_map_permutation_witness :
  get_environment_map (env_document [env_entry true "id" "1"; env_entry true "host" "a"])
  = get_environment_map (env_document [env_entry true "host" "a"; env_entry true "id" "1"]).
Proof.
  destruct (get_environment_map
              (env_document [env_entry true "host" "a"; env_entry true "id" "1"]))
    as [variable_map|e] eqn:Hm; [|by vm_compute in Hm].
  apply (get_environment_map_permutation
           [("name", PStr "dev");
            ("values", PList [env_entry true "host" "a"; env_entry true "id" "1"])]
           [("name", PStr "dev");
            ("values", PList [env_entry true "id" "1"; env_entry true "host" "a"])]
           [env_entry true "host" "a"; env_entry true "id" "1"]
           [env_entry true "id" "1"; env_entry true "host" "a"]).
  - reflexivity.
  - reflexivity.
  - apply perm_swap.
  - apply (bool_decide_unpack _). vm_compute. exact I.
  - exact Hm.
Defined.

(** ** [main] after loading *)

Lemma py_get_root collection_data :
  py_get collection_data "item" (PList []) =
  match root_of collection_data with
  | Some root => Ok root
  | None => Raise AttributeError
  end.
Proof.
  destruct collection_data as [| | | | | |entries]; try done.
  simpl. by destruct (dict_lookup "item" entries).
Qed.

Lemma walk_root collection_data env_map :
  (item ← py_get collection_data "item" (PList []); find_and_process_items env_map item) =
  match root_of collection_data with
  | Some root => find_and_process_items env_map root
  | None => Raise AttributeError
  end.
Proof. rewrite py_get_root. by destruct (root_of collection_data). Qed.

Lemma report_with_map collection_data env_data env_map :
  get_environment_map env_data = Ok env_map ->
  env_map <> ∅ ->
  report collection_data env_data =
  match root_of collection_data with
  | Some root =>
      match find_and_process_items env_map root with
      | Raise e => [Unexpected (Some e)]
      | Ok [] => [Text no_requests_text]
      | Ok final_requests =>
          [Text title_text; Text head_text; Text rule_text]
          ++ print_rows 1 final_requests ++ [Text end_text]
      end
  | None => [Unexpected (Some AttributeError)]
  end.
Proof.
  intros Hm Hne. unfold report. rewrite Hm, decide_False by done.
  rewrite walk_root. by destruct (root_of collection_data).
Qed.

Lemma print_rows_lookup final_requests i k method url :
  final_requests !! k = Some (method, url) ->
  print_rows i final_requests !! k = Some (Row (i + k) method url).
Proof.
  revert i k. induction final_requests as [|[m u] rest IH]; intros i k; [done|].
  destruct k as [|k]; simpl.
  - intros [= -> ->]. by rewrite Nat.add_0_r.
  - intros Hk. rewrite (IH (S i) k Hk). do 2 f_equal. lia.
Qed.

Lemma print_rows_length final_requests i :
  length (print_rows i final_requests) = length final_requests.
Proof.
  revert i. induction final_requests as [|[m u] rest IH]; intros i; [done|].
  simpl. by rewrite IH.
Qed.

Lemma print_rows_row_count final_requests i :
  row_count (print_rows i final_requests) = length final_requests.
Proof.
  revert i. induction final_requests as [|[m u] rest IH]; intros i; [done|].
  unfold row_count in *. simpl. by rewrite IH.
Qed.

(** X6.  For an environment document with a ['values'] list, [main]
    prints the warning, and nothing else, exactly when
    [get_environment_map] gets past every entry of the list (each is a
    dictionary, and one that is enabled with a key and a value has a key
    that can be hashed) and no entry binds a variable (none is enabled
    with a key and a value).  It does so whatever the collection document
    holds: the collection is not looked at.  With an entry the function
    does not get past, or with at least one variable bound, the warning
    is not what is printed. *)
Theorem report_warning_iff_no_binding
    (collection_data : pyval) (entries : list (string * pyval)) (items : list pyval) :
  dict_lookup "values" entries = Some (PList items) ->
  report collection_data (PDict entries) = [Text warning_text] <->
  forallb entry_ok items = true /\ bindings_of items = [].
Proof.
  intros Hv. destruct (forallb entry_ok items) eqn:Hok.
  - pose proof (get_environment_map_bindings _ _ Hv Hok) as Hm. split.
    + intros Hreport. split; [done|]. apply bindings_empty_map.
      destruct (decide ((list_to_map (reverse (bindings_of items)) : pydict) = ∅))
        as [|Hne]; [done|].
      rewrite (report_with_map _ _ _ Hm Hne) in Hreport.
      destruct (root_of collection_data) as [root|]; [|done].
      destruct (find_and_process_items _ root) as [[|r rest]|e]; [|done..].
      by vm_compute in Hreport.
    + intros [_ Hnone]. unfold report. rewrite Hm, Hnone. done.
  - split; [|by intros [? _]]. intros Hreport. exfalso.
    unfold report in Hreport. rewrite (get_environment_map_values _ _ Hv) in Hreport.
    destruct (for_each add_entry items ∅) as [variable_map|e] eqn:Hload; [|done].
    assert (returns (for_each add_entry items ∅)) as Hret
      by (rewrite Hload; apply returns_Ok).
    apply load_returns in Hret. congruence.
Qed.

Lemma report_warning_iff_no_binding_witness :
  report PNone (env_document [env_entry false "host" "a"; PDict [("enabled", PBool true)]])
  = [Text warning_text].
Proof.
  apply (report_warning_iff_no_binding PNone
           [("name", PStr "dev");
            ("values", PList [env_entry false "host" "a"; PDict [("enabled", PBool true)]])]
           [env_entry false "host" "a"; PDict [("enabled", PBool true)]]);
    [reflexivity|split; reflexivity].
Defined.

(** X7.  When there are requests, [main] prints the three lines of the
    table's head, one row for each resolved request, and an empty line:
    the rows are in the order of the walk and numbered from 1, the row
    numbered [k] showing the [k]-th request. *)
Theorem report_table
    (collection_data env_data root : pyval) (env_map : pydict)
    (final_requests : list resolved_request) :
  get_environment_map env_data = Ok env_map ->
  env_map <> ∅ ->
  root_of collection_data = Some root ->
  find_and_process_items env_map root = Ok final_requests ->
  final_requests <> [] ->
  exists rows,
    report collection_data env_data =
      [Text title_text; Text head_text; Text rule_text] ++ rows ++ [Text end_text]
    /\ length rows = length final_requests
    /\ forall k method url,
         final_requests !! k = Some (method, url) ->
         rows !! k = Some (Row (S k) method url).
Proof.
  intros Hm Hne Hroot Hwalk Hsome. exists (print_rows 1 final_requests).
  rewrite (report_with_map _ _ _ Hm Hne), Hroot, Hwalk.
  split; [by destruct final_requests|]. split; [apply print_rows_length|].
  intros k method url Hk. by rewrite (print_rows_lookup _ 1 _ _ _ Hk).
Qed.

Lemma report_table_witness :
  report (PDict [("item", sample_collection)])
    (env_document [env_entry true "host" "api.example.com"])
  = [Text title_text; Text head_text; Text rule_text;
     Row 1 (PStr "GET") "https://api.example.com/users/{{id}}";
     Row 2 (PStr "POST") "api.example.com/v1";
     Row 3 (PStr "N/A") "api.example.com/folder";
     Row 4 (PStr "DELETE") "{{base}}/x";
     Text end_text].
Proof.
  destruct (report_table (PDict [("item", sample_collection)])
              (env_document [env_entry true "host" "api.example.com"])
              sample_collection (<[KStr "host" := PStr "api.example.com"]> ∅)
              [(PStr "GET", "https://api.example.com/users/{{id}}");
               (PStr "POST", "api.example.com/v1");
               (PStr "N/A", "api.example.com/folder");
               (PStr "DELETE", "{{base}}/x")])
    as (rows & Hreport & Hlength & Hrows).
  - reflexivity.
  - apply insert_non_empty.
  - reflexivity.
  - vm_compute. reflexivity.
  - discriminate.
  - rewrite Hreport. clear Hreport. do 3 f_equal.
    destruct rows as [|r1 [|r2 [|r3 [|r4 [|r5 rows]]]]]; try discriminate Hlength.
    pose proof (Hrows 0%nat _ _ eq_refl) as H1. pose proof (Hrows 1%nat _ _ eq_refl) as H2.
    pose proof (Hrows 2%nat _ _ eq_refl) as H3. pose proof (Hrows 3%nat _ _ eq_refl) as H4.
    simpl in H1, H2, H3, H4.
    injection H1 as ->. injection H2 as ->. injection H3 as ->. injection H4 as ->.
    reflexivity.
Defined.

Lemma string_valued_bindings (bs : list (hkey * pyval)) :
  forallb (fun kv : hkey * pyval => is_string kv.2) bs = true ->
  string_valued (list_to_map (reverse bs)).
Proof.
  intros Hstr k v Hk. apply elem_of_list_to_map_2 in Hk.
  rewrite elem_of_reverse in Hk. apply list_elem_of_In in Hk.
  rewrite forallb_forall in Hstr. specialize (Hstr _ Hk). simpl in Hstr.
  destruct v; try done. by eexists.
Qed.

(** X8.  From the two documents to the table: when the environment
    document has a ['values'] list whose every entry
    [get_environment_map] gets past (each is a dictionary, and one that is
    enabled with a key and a value has a key that can be hashed), when it
    binds at least one variable and every value it binds is a string, and
    when the collection is a dictionary whose items the walk can go
    through, [main] prints as many rows as the collection has nodes with a
    well-formed request descriptor; it prints the line that says there are
    no requests exactly when there is no such node. *)
Theorem report_row_count
    (collection_data root : pyval) (entries : list (string * pyval)) (items : list pyval) :
  dict_lookup "values" entries = Some (PList items) ->
  forallb entry_ok items = true ->
  bindings_of items <> [] ->
  forallb (fun kv : hkey * pyval => is_string kv.2) (bindings_of items) = true ->
  root_of collection_data = Some root ->
  walkable root = true ->
  row_count (report collection_data (PDict entries)) = count_requests root
  /\ (report collection_data (PDict entries) = [Text no_requests_text] <->
      count_requests root = 0%nat).
Proof.
  intros Hv Hok Hsome Hstr Hroot Hw.
  pose proof (get_environment_map_bindings _ _ Hv Hok) as Hm.
  assert ((list_to_map (reverse (bindings_of items)) : pydict) <> ∅) as Hne
    by (by rewrite bindings_empty_map).
  rewrite (report_with_map _ _ _ Hm Hne), Hroot, (walk_walkable _ _ Hw).
  unfold count_requests.
  rewrite <- (flat_map_own_requests_length _ _ (string_valued_bindings _ Hstr)).
  destruct (flat_map _ (visit root)) as [|r rest]; [done|].
  cbv beta match. split.
  - pose proof (print_rows_row_count (r :: rest) 1) as Hrows.
    unfold row_count in *. rewrite !List.filter_app, !length_app, Hrows.
    simpl. lia.
  - split; [|done]. intros Hreport. simpl in Hreport. discriminate Hreport.
Qed.

Lemma report_row_count_witness :
  row_count (report (PDict [("info", PDict []); ("item", sample_collection)])
               (env_document [env_entry true "host" "api.example.com";
                              env_entry true "id" "42"]))
  = 4%nat.
Proof.
  apply (report_row_count (PDict [("info", PDict []); ("item", sample_collection)])
           sample_collection
           [("name", PStr "dev");
            ("values", PList [env_entry true "host" "api.example.com";
                              env_entry true "id" "42"])]
           [env_entry true "host" "api.example.com"; env_entry true "id" "42"]);
    (reflexivity || discriminate).
Defined.

Lemma print_rows_rows final_requests i p :
  In p (print_rows i final_requests) -> is_row p = true.
Proof.
  revert i. induction final_requests as [|[m u] rest IH]; intros i; simpl; [done|].
  intros [<-|Hin]; [done|]. by eapply IH.
Qed.

Lemma add_entry_raises variable_map item e :
  add_entry variable_map item = Raise e -> e = TypeError \/ e = AttributeError.
Proof.
  destruct item as [| | | | | |es]; try (intros [= <-]; by right).
  rewrite add_entry_dict.
  destruct (dict_lookup "enabled" es) as [en|]; [|done].
  destruct (dict_lookup "key" es) as [key|]; [|done].
  destruct (dict_lookup "value" es) as [val|]; [|done].
  destruct (truthy en); [|done].
  destruct (hash_key key) as [k|e'] eqn:Hk; simpl; [done|]. intros [= <-]. left.
  destruct key as [|[]|[]|[]| | |]; simpl in Hk; congruence.
Qed.

Lemma load_raises items variable_map e :
  for_each add_entry items variable_map = Raise e -> e = TypeError \/ e = AttributeError.
Proof.
  revert variable_map. induction items as [|item rest IH]; intros variable_map; [done|].
  simpl. destruct (add_entry variable_map item) as [m|e'] eqn:Hadd; simpl.
  - apply IH.
  - intros [= <-]. by eapply add_entry_raises.
Qed.

Lemma get_environment_map_raises env_data e :
  get_environment_map env_data = Raise e -> e = TypeError \/ e = AttributeError.
Proof.
  unfold get_environment_map.
  destruct env_data as [| | | |s|items|entries]; simpl;
    try (intros [= <-]; by left).
  - destruct (str_contains "values" s); simpl; [|done]. intros [= <-]; by left.
  - destruct (existsb _ items); simpl; [|done]. intros [= <-]; by left.
  - destruct (dict_lookup "values" entries) as [values|].
    + rewrite bool_decide_true by eauto. simpl.
      destruct values; try done. apply load_raises.
    + rewrite bool_decide_false; [done|]. by intros [? ?].
Qed.

(** X9.  [main] reports an unexpected error in two cases only: the
    environment document makes [get_environment_map] raise, or the
    environment binds some variable and the collection document is not a
    dictionary or holds a node the walk cannot go through.  The exception
    reported is a [TypeError] or an [AttributeError], never a
    [KeyError]. *)
Theorem report_unexpected (collection_data env_data : pyval) :
  ((exists e, report collection_data env_data = [Unexpected e]) <->
   (~ returns (get_environment_map env_data) \/
    exists env_map,
      get_environment_map env_data = Ok env_map /\ env_map <> ∅ /\
      match root_of collection_data with
      | Some root => walkable root = false
      | None => True
      end))
  /\ (forall e, In (Unexpected e) (report collection_data env_data) ->
                e = Some TypeError \/ e = Some AttributeError).
Proof.
  destruct (get_environment_map env_data) as [env_map|e] eqn:Hm.
  2: { unfold report. rewrite Hm. split.
       - split; [intros _; left; by apply not_returns_Raise|by eexists].
       - intros e' [[= <-]|[]]. apply get_environment_map_raises in Hm.
         destruct Hm as [-> | ->]; auto. }
  destruct (decide (env_map = ∅)) as [->|Hne].
  { unfold report. rewrite Hm, decide_True by done. split.
    - split; [by intros [e [=]]|].
      intros [Hret|(m & [= <-] & Hm' & _)]; [|done]. destruct Hret. apply returns_Ok.
    - by intros e [|[]]. }
  rewrite (report_with_map _ _ _ Hm Hne).
  destruct (root_of collection_data) as [root|].
  2: { split.
       - split; [intros _; right; by exists env_map|by eexists].
       - intros e [[= <-]|[]]. by right. }
  pose proof (walk_walk_spec env_map root) as Hspec. unfold walk_outcome in Hspec.
  destruct (walkable root) eqn:Hw; rewrite Hspec.
  - split.
    + split.
      * intros [e He]. by destruct (flat_map _ (visit root)).
      * intros [Hret|(m & _ & _ & [=])]. destruct Hret. apply returns_Ok.
    + intros e Hin. destruct (flat_map _ (visit root)) as [|r rest].
      * by destruct Hin as [|[]].
      * simpl in Hin. destruct Hin as [|[|[|Hin]]]; try done.
        apply in_app_or in Hin as [Hin|[|[]]]; [|done].
        apply (print_rows_rows (r :: rest) 1) in Hin. discriminate Hin.
  - split.
    + split; [intros _; right; by exists env_map|by eexists].
    + intros e [[= <-]|[]]. by left.
Qed.

(** ** Placeholders and resolved URLs *)

Lemma for_each_substitute_unchanged env_map placeholders resolved_url :
  (forall p, In p placeholders -> env_map !! KStr p = None) ->
  for_each (substitute env_map) placeholders resolved_url = Ok resolved_url.
Proof.
  induction placeholders as [|p rest IH]; intros Hnone; [done|].
  simpl for_each. rewrite substitute_absent by (apply Hnone; by left).
  rewrite bind_Ok. apply IH. intros q Hq. apply Hnone. by right.
Qed.

(** X10.  A URL in which no placeholder is a key of the map comes out as
    it went in; so does, in particular, a URL without placeholders, and
    any URL when the map is empty. *)
Theorem resolve_url_unchanged (env_map : pydict) (raw_url : string) :
  (forall placeholder, In placeholder (findall raw_url) ->
                       env_map !! KStr placeholder = None) ->
  resolve_url env_map raw_url = Ok raw_url.
Proof. apply for_each_substitute_unchanged. Qed.

Lemma resolve_url_unchanged_witness :
  resolve_url sample_env "https://{{base}}/v2/{x}/{{}}" = Ok "https://{{base}}/v2/{x}/{{}}".
Proof.
  apply (resolve_url_unchanged sample_env "https://{{base}}/v2/{x}/{{}}").
  intros placeholder [<-|[]]. reflexivity.
Defined.

Lemma str_contains_append sub before after :
  str_contains sub (before +:+ sub +:+ after) = true.
Proof.
  induction before as [|c before IH].
  - change ("" +:+ sub +:+ after) with (sub +:+ after).
    destruct (sub +:+ after) eqn:E; simpl; rewrite <- E, prefix_append; done.
  - change (String c before +:+ sub +:+ after) with (String c (before +:+ sub +:+ after)).
    simpl. rewrite IH. apply orb_true_r.
Qed.

Lemma names_of_In ps name : In name (names_of ps) <-> In (Tok name) ps.
Proof.
  unfold names_of. rewrite in_flat_map. split.
  - intros ([c|n] & Hin & Hname); [done|]. by destruct Hname as [->|[]].
  - intros Hin. exists (Tok name). split; [done|by left].
Qed.

Lemma render_split before p after :
  render (before ++ p :: after) = render before +:+ render_piece p +:+ render after.
Proof. by rewrite render_app, render_cons. Qed.

(** X11.  What the pattern finds: every placeholder found has a name that
    is not empty and holds no brace, and its token [{{name}}] stands in
    the URL. *)
Theorem findall_names (raw_url placeholder : string) :
  In placeholder (findall raw_url) ->
  placeholder <> ""
  /\ brace_free placeholder = true
  /\ str_contains (token placeholder) raw_url = true.
Proof.
  rewrite <- names_of_pieces, names_of_In. intros Hin.
  pose proof (well_formed_pieces_from 0 raw_url) as Hwf. fold (pieces raw_url) in Hwf.
  eapply forallb_forall in Hwf; [|done]. simpl in Hwf.
  apply andb_true_iff in Hwf as [Hfree Hne].
  apply negb_true_iff, String.eqb_neq in Hne.
  split; [done|]. split; [done|].
  apply in_split in Hin as (before & after & Hsplit).
  rewrite <- (render_pieces raw_url), Hsplit, render_split.
  apply str_contains_append.
Qed.

Lemma findall_names_witness :
  "id" <> "" /\ brace_free "id" = true
  /\ str_contains (token "id") "{{host}}/v1/{{{id}}/{x}" = true.
Proof.
  apply (findall_names "{{host}}/v1/{{{id}}/{x}" "id"). vm_compute. auto.
Defined.

Lemma findall_from_drop skip s : findall_from skip s = findall_from 0 (str_drop skip s).
Proof.
  revert skip. induction s as [|c s IH]; intros skip; [by destruct skip|].
  destruct skip as [|k]; [done|]. apply IH.
Qed.

Lemma findall_from_match c s name rest :
  match_placeholder (String c s) = Some (name, rest) ->
  findall_from 0 (String c s) = name :: findall_from (String.length name + 3) s.
Proof. intros Hm. cbn [findall_from]. by rewrite Hm. Qed.

(** On a text without stray opening braces the pattern finds the tokens
    and nothing else. *)
Lemma findall_render ps :
  forallb clean_piece ps = true -> findall (render ps) = names_of ps.
Proof.
  induction ps as [|p ps IH]; [done|]. simpl.
  intros [Hp Hps]%andb_true_iff. rewrite render_cons.
  destruct p as [c|name]; simpl in Hp.
  - apply negb_true_iff, Ascii.eqb_neq in Hp.
    change (render_piece (Lit c) +:+ render ps) with (String c (render ps)).
    unfold findall. cbn [findall_from].
    rewrite match_placeholder_not_open by done. by apply IH.
  - apply andb_true_iff in Hp as [Hfree Hne].
    apply negb_true_iff, String.eqb_neq in Hne.
    cbn [render_piece]. unfold findall.
    pose proof (match_placeholder_token name (render ps) Hfree Hne) as Hm.
    rewrite token_append in *. rewrite (findall_from_match _ _ _ _ Hm).
    change (names_of (Tok name :: ps)) with (name :: names_of ps). f_equal.
    rewrite findall_from_drop.
    replace (String.length name + 3)%nat
      with (S (String.length (name +:+ "}}"))) by (rewrite length_append; simpl; lia).
    cbn [str_drop].
    replace (name +:+ String "}" (String "}" (render ps)))
      with ((name +:+ "}}") +:+ render ps) by (by rewrite append_assoc).
    rewrite str_drop_append. by apply IH.
Qed.

Lemma clean_expand_under names env_map ps :
  forallb clean_piece ps = true ->
  (forall name v, In name names -> env_map !! KStr name = Some v ->
                  exists s, v = PStr s /\ no_open s = true) ->
  forallb clean_piece (flat_map (expand_under names env_map) ps) = true.
Proof.
  intros Hclean Hvalues. induction ps as [|p ps IH]; [done|].
  simpl in *. apply andb_true_iff in Hclean as [Hp Hps].
  rewrite forallb_app, IH by done. rewrite andb_true_r.
  destruct p as [c|name]; simpl in Hp |- *; [by rewrite Hp|].
  destruct (existsb (String.eqb name) names) eqn:Hin; [|simpl; by rewrite Hp].
  apply existsb_exists in Hin as (n & Hin & ->%String.eqb_eq).
  destruct (env_map !! KStr n) as [v|] eqn:Hv; [|simpl; by rewrite Hp].
  destruct (Hvalues n v Hin Hv) as (s & -> & Hopen). by apply clean_lits.
Qed.

Lemma names_of_lits s : names_of (lits s) = [].
Proof. induction s as [|c s IH]; [done|]. exact IH. Qed.

Lemma names_of_app ps qs : names_of (ps ++ qs) = names_of ps ++ names_of qs.
Proof. unfold names_of. apply flat_map_app. Qed.

Lemma names_of_expand_under names env_map ps name :
  (forall n, In n (names_of ps) -> In n names) ->
  In name (names_of (flat_map (expand_under names env_map) ps)) ->
  forall s, env_map !! KStr name <> Some (PStr s).
Proof.
  induction ps as [|p ps IH]; intros Hnames; [done|].
  simpl flat_map. rewrite names_of_app, in_app_iff. intros [Hin|Hin].
  - destruct p as [c|n]; [done|]. simpl in Hin.
    rewrite existsb_eqb_In in Hin by (apply Hnames; unfold names_of; simpl; by left).
    destruct (env_map !! KStr n) as [v|] eqn:Hv.
    + destruct v; try (destruct Hin as [<-|[]]; by rewrite Hv).
      by rewrite names_of_lits in Hin.
    + destruct Hin as [<-|[]]. by rewrite Hv.
  - apply IH; [|done]. intros n Hn. apply Hnames.
    unfold names_of in *. simpl. apply in_or_app. by right.
Qed.

(** X12.  Under the conditions of a single pass (no opening brace outside
    the placeholders of the URL, nor in the values of its placeholders),
    resolution leaves no placeholder behind that the map knows, and
    resolving the resolved URL once more changes nothing. *)
Theorem resolve_url_idempotent (env_map : pydict) (raw_url : string) :
  no_stray_open raw_url = true ->
  (forall placeholder v,
      In placeholder (findall raw_url) ->
      env_map !! KStr placeholder = Some v ->
      exists value, v = PStr value /\ no_open value = true) ->
  exists resolved_url,
    resolve_url env_map raw_url = Ok resolved_url
    /\ (forall placeholder, In placeholder (findall resolved_url) ->
                            env_map !! KStr placeholder = None)
    /\ resolve_url env_map resolved_url = Ok resolved_url.
Proof.
  intros Hstray Hvalues.
  set (qs := flat_map (expand_under (findall raw_url) env_map) (pieces raw_url)).
  assert (forallb clean_piece qs = true) as Hclean
    by (apply clean_expand_under; [by apply clean_pieces|done]).
  assert (forall placeholder, In placeholder (findall (render qs)) ->
                              env_map !! KStr placeholder = None) as Hnone.
  { intros p. rewrite findall_render by done. intros Hin.
    assert (In p (findall raw_url)) as Hfound.
    { clear -Hin. rewrite <- names_of_pieces. revert Hin. unfold qs.
      generalize (findall raw_url). intros names.
      induction (pieces raw_url) as [|x ps IH]; [done|].
      simpl flat_map. rewrite names_of_app, in_app_iff.
      intros [Hin|Hin].
      - destruct x as [c|n]; [done|]. unfold names_of. simpl. left. simpl in Hin.
        destruct (existsb (String.eqb n) names); [|by destruct Hin as [|[]]].
        destruct (env_map !! KStr n) as [[]|]; try (by destruct Hin as [|[]]).
        by rewrite names_of_lits in Hin.
      - unfold names_of in *. simpl. apply in_or_app. right. by apply IH. }
    pose proof (names_of_expand_under (findall raw_url) env_map (pieces raw_url) p) as Hn.
    rewrite names_of_pieces in Hn. specialize (Hn (fun n H => H) Hin).
    destruct (env_map !! KStr p) as [v|] eqn:Hv; [|done].
    destruct (Hvalues p v Hfound Hv) as (s & -> & _). by destruct (Hn s). }
  exists (render qs). split; [|split; [done|by apply for_each_substitute_unchanged]].
  unfold resolve_url. rewrite <- (render_pieces raw_url) at 2.
  subst qs. apply passes_render.
  - by apply clean_pieces.
  - intros q. rewrite <- names_of_pieces.
    apply names_of_brace_free, well_formed_pieces_from.
  - done.
Qed.

Lemma resolve_url_idempotent_witness :
  exists resolved_url,
    resolve_url sample_env "{{host}}/v1/{{id}}/{{base}}" = Ok resolved_url
    /\ (forall placeholder, In placeholder (findall resolved_url) ->
                            sample_env !! KStr placeholder = None)
    /\ resolve_url sample_env resolved_url = Ok resolved_url.
Proof.
  apply (resolve_url_idempotent sample_env "{{host}}/v1/{{id}}/{{base}}").
  - reflexivity.
  - intros placeholder v [<-|[<-|[<-|[]]]]; vm_compute; intros [= <-];
      eexists; split; reflexivity.
Defined.

(** ** What the walk returns *)

Lemma walk_returns_walkable env_map collection_item resolved_requests :
  find_and_process_items env_map collection_item = Ok resolved_requests ->
  walkable collection_item = true.
Proof.
  intros Hwalk. destruct (walkable collection_item) eqn:Hw; [done|].
  by rewrite (walk_not_walkable _ _ Hw) in Hwalk.
Qed.

(** X13.  The walk invents nothing: every pair it returns is the method
    and the resolved raw URL of a node of the collection that has a
    well-formed request descriptor. *)
Theorem walk_requests_from_nodes
    (env_map : pydict) (collection_item : pyval)
    (resolved_requests : list resolved_request) (method : pyval) (url : string) :
  find_and_process_items env_map collection_item = Ok resolved_requests ->
  In (method, url) resolved_requests ->
  exists node raw,
    In node (visit collection_item)
    /\ raw_url_of node = Some raw
    /\ method_of node = method
    /\ resolve_url env_map raw = Ok url.
Proof.
  intros Hwalk Hin. pose proof (walk_returns_walkable _ _ _ Hwalk) as Hw.
  rewrite (walk_walkable _ _ Hw) in Hwalk. injection Hwalk as <-.
  apply in_flat_map in Hin as (node & Hnode & Hown).
  rewrite own_requests_raw in Hown.
  destruct (raw_url_of node) as [raw|] eqn:Hraw; [|done].
  destruct (resolve_url env_map raw) as [u|] eqn:Hres; [|done].
  destruct Hown as [[= <- <-]|[]]. by exists node, raw.
Qed.

Lemma walk_requests_from_nodes_witness :
  exists node raw,
    In node (visit sample_collection)
    /\ raw_url_of node = Some raw
    /\ method_of node = PStr "POST"
    /\ resolve_url sample_env raw = Ok "api.example.com/v1".
Proof.
  eapply (walk_requests_from_nodes sample_env sample_collection).
  - vm_compute. reflexivity.
  - right. left. reflexivity.
Defined.

Lemma own_requests_length_le env_map collection_item :
  (length (own_requests env_map collection_item) <=
   if well_formed_request collection_item then 1 else 0)%nat.
Proof.
  rewrite own_requests_raw. unfold well_formed_request.
  destruct (raw_url_of collection_item) as [raw|].
  - rewrite bool_decide_true by eauto. destruct (resolve_url env_map raw); simpl; lia.
  - rewrite bool_decide_false; [done|]. by intros [? ?].
Qed.

(** X14.  Whatever the variable map holds (strings or not), the walk
    never returns more requests than the collection has nodes with a
    well-formed request descriptor. *)
Theorem walk_length_le
    (env_map : pydict) (collection_item : pyval)
    (resolved_requests : list resolved_request) :
  find_and_process_items env_map collection_item = Ok resolved_requests ->
  (length resolved_requests <= count_requests collection_item)%nat.
Proof.
  intros Hwalk. pose proof (walk_returns_walkable _ _ _ Hwalk) as Hw.
  rewrite (walk_walkable _ _ Hw) in Hwalk. injection Hwalk as <-.
  unfold count_requests. induction (visit collection_item) as [|node rest IH]; [done|].
  simpl flat_map. rewrite length_app, filter_cons.
  pose proof (own_requests_length_le env_map node) as Hown.
  destruct (well_formed_request node) eqn:Hwf.
  - rewrite decide_True by done. simpl. lia.
  - rewrite decide_False by done. lia.
Qed.

Lemma walk_length_le_witness :
  (length [(PStr "GET", "https://api.example.com/users/42")] <=
   count_requests (PList [request_node "GET" "https://{{host}}/users/{{id}}";
                          request_node "PUT" "{{n}}"]))%nat.
Proof.
  apply (walk_length_le (<[KStr "n" := PInt 7]> sample_env)).
  vm_compute. reflexivity.
Defined.

(** ** The list a run returns *)

Lemma each_item_returns self resolved_requests collection_item turns i h r h' :
  each_item self resolved_requests collection_item turns i h = (Returns r, h') ->
  r = VRef resolved_requests.
Proof.
  revert i h. induction turns as [|turns IH]; intros i h; [done|].
  simpl. rewrite stateful_bind_run. unfold read at 1.
  destruct (next_item collection_item i h) as [[item|]|e|]; try done.
  - rewrite stateful_bind_run. destruct (self item h) as [[found|e|] h1]; try done.
    rewrite stateful_bind_run.
    destruct (list_extend resolved_requests found h1) as [[[]|e|] h2]; try done.
    apply IH.
  - by intros [= <- _].
Qed.

Lemma keeps_lists_refl h : keeps_lists h h.
Proof. intros l items Hl. by exists items. Qed.

Lemma keeps_lists_trans h1 h2 h3 :
  keeps_lists h1 h2 -> keeps_lists h2 h3 -> keeps_lists h1 h3.
Proof.
  intros H12 H23 l items Hl. destruct (H12 _ _ Hl) as [items' Hl']. by eapply H23.
Qed.

Lemma keeps_lists_insert h l items : keeps_lists h (<[l := OList items]> h).
Proof.
  intros l' items' Hl'. destruct (decide (l = l')) as [->|Hne].
  - exists items. apply list_lookup_insert_eq. by eapply lookup_lt_Some.
  - exists items'. by rewrite list_lookup_insert_ne.
Qed.

Lemma list_keeping_ret {A : Type} (a : A) : list_keeping (mret a : stateful A).
Proof. intros h. apply keeps_lists_refl. Qed.

Lemma list_keeping_read {A : Type} (e : store -> outcome A) : list_keeping (read e).
Proof. intros h. apply keeps_lists_refl. Qed.

Lemma list_keeping_bind {A B : Type} (c : stateful A) (k : A -> stateful B) :
  list_keeping c -> (forall a, list_keeping (k a)) -> list_keeping (c ≫= k).
Proof.
  intros Hc Hk h. rewrite stateful_bind_run. specialize (Hc h).
  destruct (c h) as [[a|e|] h1]; simpl in *; [|done..].
  eapply keeps_lists_trans; [done|apply Hk].
Qed.

Lemma list_keeping_try_pass body : list_keeping body -> list_keeping (try_pass body).
Proof.
  intros Hbody h. unfold try_pass. specialize (Hbody h).
  by destruct (body h) as [[[]|[]|] h1].
Qed.

Lemma list_keeping_new_list : list_keeping new_list.
Proof. intros h l items Hl. exists items. simpl. by apply lookup_app_l_Some. Qed.

Lemma list_keeping_list_extend resolved_requests found :
  list_keeping (list_extend resolved_requests found).
Proof.
  intros h. unfold list_extend.
  destruct (h !! resolved_requests) as [[mine| |]|]; try apply keeps_lists_refl.
  destruct found as [| | | | | |l]; try apply keeps_lists_refl.
  destruct (h !! l) as [[theirs| |]|]; try apply keeps_lists_refl.
  apply keeps_lists_insert.
Qed.

Lemma list_keeping_list_append resolved_requests x :
  list_keeping (list_append resolved_requests x).
Proof.
  intros h. unfold list_append.
  destruct (h !! resolved_requests) as [[mine| |]|]; try apply keeps_lists_refl.
  apply keeps_lists_insert.
Qed.

Lemma list_keeping_each_item self resolved_requests collection_item turns i :
  (forall item, list_keeping (self item)) ->
  list_keeping (each_item self resolved_requests collection_item turns i).
Proof.
  intros Hself. revert i. induction turns as [|turns IH]; intros i.
  - intros h. apply keeps_lists_refl.
  - cbn [each_item]. apply list_keeping_bind; [apply list_keeping_read|].
    intros [item|]; [|apply list_keeping_ret].
    apply list_keeping_bind; [apply Hself|]. intros found.
    apply list_keeping_bind; [apply list_keeping_list_extend|]. intros _. apply IH.
Qed.

Lemma list_keeping_extend_with_nested self resolved_requests collection_item :
  (forall item, list_keeping (self item)) ->
  list_keeping (extend_with_nested self resolved_requests collection_item).
Proof.
  intros Hself. unfold extend_with_nested.
  apply list_keeping_bind; [apply list_keeping_read|]. intros [|]; [|apply list_keeping_ret].
  apply list_keeping_bind; [apply list_keeping_read|]. intros item.
  apply list_keeping_bind; [apply list_keeping_read|]. intros [|]; [|apply list_keeping_ret].
  apply list_keeping_bind; [apply list_keeping_read|]. intros item'.
  apply list_keeping_bind; [apply Hself|]. intros found.
  apply list_keeping_list_extend.
Qed.

Lemma list_keeping_append_own_request resolved_requests env_map collection_item :
  list_keeping (append_own_request resolved_requests env_map collection_item).
Proof.
  unfold append_own_request.
  apply list_keeping_bind; [apply list_keeping_read|]. intros [|]; [|apply list_keeping_ret].
  apply list_keeping_try_pass.
  apply list_keeping_bind; [apply list_keeping_read|]. intros request.
  apply list_keeping_list_append.
Qed.

(** The statements of the body that come after [resolved_requests = []]. *)
Lemma list_keeping_after_new_list self turns env_map collection_item resolved_requests :
  (forall item, list_keeping (self item)) ->
  list_keeping
    (is_list ← read (store_is_list collection_item);
     if is_list : bool then
       each_item self resolved_requests collection_item turns 0
     else
       _ ← extend_with_nested self resolved_requests collection_item;
       _ ← append_own_request resolved_requests env_map collection_item;
       mret (VRef resolved_requests)).
Proof.
  intros Hself. apply list_keeping_bind; [apply list_keeping_read|]. intros [|].
  - by apply list_keeping_each_item.
  - apply list_keeping_bind; [by apply list_keeping_extend_with_nested|]. intros _.
    apply list_keeping_bind; [apply list_keeping_append_own_request|]. intros _.
    apply list_keeping_ret.
Qed.

Lemma list_keeping_store fuel env_map collection_item :
  list_keeping (find_and_process_items_store fuel env_map collection_item).
Proof.
  revert collection_item. induction fuel as [|fuel IH]; intros collection_item.
  - intros h. apply keeps_lists_refl.
  - cbn [find_and_process_items_store]. unfold find_and_process_items_store_body.
    apply list_keeping_bind; [apply list_keeping_new_list|]. intros resolved_requests.
    by apply list_keeping_after_new_list.
Qed.

Lemma store_run_keeps_new_list fuel env_map collection_item h :
  keeps_lists (h ++ [OList []])
    (find_and_process_items_store (S fuel) env_map collection_item h).2.
Proof.
  exact (list_keeping_after_new_list (find_and_process_items_store fuel env_map) fuel
           env_map collection_item (length h) (list_keeping_store fuel env_map)
           (h ++ [OList []])).
Qed.

(** X15.  When a run over the store returns, what it returns is the list
    it made on entry: a reference to the first free location of the store
    it started from, so never an object the caller had, and in the store
    the run leaves that location holds a list. *)
Theorem find_and_process_items_store_returns_new_list
    (fuel : nat) (env v : val) (h h' : store) (r : val) :
  find_and_process_items_store fuel env v h = (Returns r, h') ->
  r = VRef (length h)
  /\ h !! length h = None
  /\ exists items, h' !! length h = Some (OList items).
Proof.
  intros Hrun. destruct fuel as [|fuel]; [done|].
  split; [|split; [by apply lookup_ge_None_2|]].
  - simpl in Hrun.
    unfold find_and_process_items_store_body, new_list in Hrun.
    rewrite !stateful_bind_run in Hrun. unfold read at 1 in Hrun.
    destruct (store_is_list v (h ++ [OList []])) as [[]|e|]; try done.
    + by apply each_item_returns in Hrun.
    + rewrite stateful_bind_run in Hrun.
      destruct (extend_with_nested _ _ _ _) as [[[]|e|] h1]; try done.
      rewrite stateful_bind_run in Hrun.
      destruct (append_own_request _ _ _ _) as [[[]|e|] h2]; try done.
      by injection Hrun as <- _.
  - pose proof (store_run_keeps_new_list fuel env v h) as Hkeep.
    rewrite Hrun in Hkeep. apply (Hkeep (length h) []), store_middle_lookup.
Qed.

Lemma find_and_process_items_store_returns_new_list_witness :
  VRef 5 = VRef (length sample_store)
  /\ sample_store !! length sample_store = None
  /\ exists items,
       (find_and_process_items_store 10 (VRef 0) (VRef 4) sample_store).2
         !! length sample_store = Some (OList items).
Proof.
  apply (find_and_process_items_store_returns_new_list 10 (VRef 0) (VRef 4) sample_store).
  vm_compute. reflexivity.
Defined.
